(** * HornSAT: the CNF fuzzer [cnf-fuzz-horn.py]

    A shallow embedding of the clause-mutation core of the fuzzer and the
    properties of its Horn classifier, assignment builder, Horn-count
    adjuster and satisfiability repairer.

    Modelling conventions.
    - A Python [int] is a [Z]; a literal is a [Z], a clause a [list Z] and
      a formula a [list (list Z)].  Every clause of the program is a list
      object of its own ([parse_cnf_file] builds one per line and
      [generate_instance] copies each with [clause[:]]), so writing to one
      clause is a functional update of that clause alone.
    - The assignment is a Python [dict]: a [gmap Z bool].  Reading a key
      that is absent raises [KeyError]; [list.index] of an absent value
      raises [ValueError]; [//] by zero raises [ZeroDivisionError].  A
      raised exception is [None] in the [option] monad.
    - [random.choice([True, False])] is the next element of a sequence
      [choices : nat -> bool] of draws; [random.random() < 0.75] is a
      boolean input. *)

From Stdlib Require Import Ascii.
From stdpp Require Import base option numbers list gmap strings pretty.

Local Open Scope Z_scope.

(** ** Python helpers *)

(** [sum(xs)]: left-to-right, starting from [0]. *)
Definition py_sum (xs : list Z) : Z := fold_left Z.add xs 0.

(** [enumerate(xs, start)] and [enumerate(xs)]. *)
Fixpoint enumerate_from {A} (start : nat) (xs : list A) : list (nat * A) :=
  match xs with
  | [] => []
  | x :: rest => (start, x) :: enumerate_from (S start) rest
  end.

Definition enumerate {A} (xs : list A) : list (nat * A) :=
  enumerate_from 0 xs.

(** [xs.index(x)]: position of the first element equal to [x]. *)
Fixpoint py_index (x : Z) (xs : list Z) : option nat :=
  match xs with
  | [] => None
  | y :: ys => if bool_decide (y = x) then Some 0%nat else S <$> py_index x ys
  end.

(** [xs[:-1]]. *)
Definition py_but_last {A} (xs : list A) : list A :=
  take (length xs - 1)%nat xs.

(** [a // b]. *)
Definition py_floordiv (a b : Z) : option Z :=
  if bool_decide (b = 0) then None else Some (a `div` b).

(** [range(n)]. *)
Definition py_range (n : Z) : list Z := seqZ 0 n.

(** ** Horn classifier *)

(** [[lit for lit in clause if lit > 0]] *)
Definition positives (clause : list Z) : list Z :=
  filter (λ lit, 0 < lit) clause.

(** [[lit for lit in clause if lit < 0]] *)
Definition negatives (clause : list Z) : list Z :=
  filter (λ lit, lit < 0) clause.

Definition count_horn_clauses (clauses : list (list Z)) : Z :=
  py_sum ((λ _, 1) <$>
          filter (λ clause, (length (positives clause) ≤ 1)%nat) clauses).

(** The classifier in the words of the specification: the number of
    positive literals of a clause, and the number of clauses having at
    most one. *)
Fixpoint positive_count (clause : list Z) : nat :=
  match clause with
  | [] => 0%nat
  | lit :: rest =>
      if 0 <? lit then S (positive_count rest) else positive_count rest
  end.

Definition is_horn (clause : list Z) : bool :=
  (positive_count clause <=? 1)%nat.

Fixpoint horn_count_spec (clauses : list (list Z)) : nat :=
  match clauses with
  | [] => 0%nat
  | clause :: rest =>
      if is_horn clause then S (horn_count_spec rest) else horn_count_spec rest
  end.

(** ** Satisfaction *)

(** [any(solution[abs(lit)] == (lit > 0) for lit in clause)]: the
    generator is consumed from the left and [any] stops at the first
    [True]; a missing key raises before that. *)
Fixpoint is_clause_satisfied (clause : list Z) (solution : gmap Z bool)
    : option bool :=
  match clause with
  | [] => Some false
  | lit :: rest =>
      b ← solution !! Z.abs lit;
      if Bool.eqb b (0 <? lit) then Some true
      else is_clause_satisfied rest solution
  end.

(** ** Assignment builder *)

Section generate_solution.

Variable num_vars : Z.

(** The inner [for lit in clause] loop.  Its [break] sits inside the
    [if var not in solution], so it is only taken right after an
    insertion. *)
Fixpoint scan_clause (clause : list Z) (solution : gmap Z bool)
    : gmap Z bool :=
  match clause with
  | [] => solution
  | lit :: rest =>
      let var := Z.abs lit in
      match solution !! var with
      | None =>
          let solution' := <[var := (0 <? lit)]> solution in
          if bool_decide (Z.of_nat (size solution') = num_vars)
          then solution'
          else scan_clause rest solution'
      | Some _ => scan_clause rest solution
      end
  end.

(** The outer [for clause in clauses] loop, with its own [break]. *)
Fixpoint scan_clauses (clauses : list (list Z)) (solution : gmap Z bool)
    : gmap Z bool :=
  match clauses with
  | [] => solution
  | clause :: rest =>
      let solution' := scan_clause clause solution in
      if bool_decide (Z.of_nat (size solution') = num_vars)
      then solution'
      else scan_clauses rest solution'
  end.

(** [for var in range(1, num_vars + 1)]: every variable still unset
    takes the next random draw; [drawn] counts the draws made so far. *)
Fixpoint fill_unset (choices : nat → bool) (vars : list Z)
    (solution : gmap Z bool) (drawn : nat) : gmap Z bool :=
  match vars with
  | [] => solution
  | var :: rest =>
      match solution !! var with
      | None =>
          fill_unset choices rest (<[var := choices drawn]> solution)
                     (S drawn)
      | Some _ => fill_unset choices rest solution drawn
      end
  end.

Definition generate_solution (clauses : list (list Z))
    (choices : nat → bool) : gmap Z bool :=
  fill_unset choices (seqZ 1 num_vars) (scan_clauses clauses ∅) 0.

End generate_solution.

(** The scan of [generate_solution] without its early exits: every
    literal whose variable is still unset fixes it. *)
Fixpoint scan_literals (lits : list Z) (solution : gmap Z bool)
    : gmap Z bool :=
  match lits with
  | [] => solution
  | lit :: rest =>
      scan_literals rest
        (match solution !! Z.abs lit with
         | None => <[Z.abs lit := (0 <? lit)]> solution
         | Some _ => solution
         end)
  end.

(** Every key of the assignment is a variable of [1..num_vars]. *)
Definition in_range (num_vars : Z) (sol : gmap Z bool) : Prop :=
  ∀ var, is_Some (sol !! var) → 1 ≤ var ≤ num_vars.

(** Every literal names a variable of [1..num_vars]. *)
Definition literals_in_range (num_vars : Z) (lits : list Z) : Prop :=
  Forall (λ lit, 1 ≤ Z.abs lit ≤ num_vars) lits.

(** ** Horn-count adjuster (first half of [generate_instance]) *)

(** [for lit_to_flip in lits: clause[clause.index(lit_to_flip)] =
    f(lit_to_flip)], with [f] the negation or the absolute value. *)
Fixpoint flip_each (f : Z → Z) (lits : list Z) (clause : list Z)
    : option (list Z) :=
  match lits with
  | [] => Some clause
  | lit_to_flip :: rest =>
      i ← py_index lit_to_flip clause;
      flip_each f rest (<[i := f lit_to_flip]> clause)
  end.

(** The loop taken when [horn_count < target_horn_clauses]; the result is
    the clause list with the running counter. *)
Fixpoint increase_loop (target : Z) (clauses : list (list Z))
    (horn_count : Z) : option (list (list Z) * Z) :=
  match clauses with
  | [] => Some ([], horn_count)
  | clause :: rest =>
      if bool_decide (target ≤ horn_count) then Some (clauses, horn_count)
      else
        let positive_literals := positives clause in
        if bool_decide (1 < length positive_literals)%nat then
          clause' ← flip_each Z.opp (py_but_last positive_literals) clause;
          '(rest', horn_count') ← increase_loop target rest (horn_count + 1);
          Some (clause' :: rest', horn_count')
        else
          '(rest', horn_count') ← increase_loop target rest horn_count;
          Some (clause :: rest', horn_count')
  end.

(** The loop taken when [horn_count > target_horn_clauses]. *)
Fixpoint decrease_loop (target : Z) (clauses : list (list Z))
    (horn_count : Z) : option (list (list Z) * Z) :=
  match clauses with
  | [] => Some ([], horn_count)
  | clause :: rest =>
      if bool_decide (horn_count ≤ target) then Some (clauses, horn_count)
      else if bool_decide (length (positives clause) ≤ 1)%nat then
        let neg_literals := negatives clause in
        clause' ← flip_each Z.abs (take 2 neg_literals) clause;
        let horn_count' :=
          if bool_decide (2 ≤ length (positives clause'))%nat
          then horn_count - 1 else horn_count in
        '(rest', horn_count'') ← decrease_loop target rest horn_count';
        Some (clause' :: rest', horn_count'')
      else
        '(rest', horn_count') ← decrease_loop target rest horn_count;
        Some (clause :: rest', horn_count')
  end.

Definition adjust_horn_count (target : Z) (modified_clauses : list (list Z))
    : option (list (list Z) * Z) :=
  let horn_count := count_horn_clauses modified_clauses in
  if bool_decide (horn_count < target) then
    increase_loop target modified_clauses horn_count
  else if bool_decide (target < horn_count) then
    decrease_loop target modified_clauses horn_count
  else Some (modified_clauses, horn_count).

(** The adjuster in the words of the specification. *)

(** Every positive literal except the last one in clause order becomes
    negative. *)
Fixpoint negate_positives_but_last (clause : list Z) : list Z :=
  match clause with
  | [] => []
  | lit :: rest =>
      (if bool_decide (0 < lit ∧ positives rest ≠ []) then - lit else lit)
      :: negate_positives_but_last rest
  end.

(** The first [n] negative literals in clause order become positive. *)
Fixpoint flip_first_negatives (n : nat) (clause : list Z) : list Z :=
  match clause with
  | [] => []
  | lit :: rest =>
      if bool_decide (lit < 0) then
        match n with
        | O => lit :: rest
        | S n' => Z.abs lit :: flip_first_negatives n' rest
        end
      else lit :: flip_first_negatives n rest
  end.

(** A Horn clause whose flip raises its positive-literal count to two or
    more. *)
Definition decrease_eligible (clause : list Z) : bool :=
  is_horn clause
  && (2 <=? positive_count (flip_first_negatives 2 clause))%nat.

(** Number of clauses with more than one positive literal. *)
Definition non_horn_count (clauses : list (list Z)) : nat :=
  length (filter (λ clause, is_horn clause = false) clauses).

(** The increase pass in the words of the specification: walk the clauses
    in order and turn each non-Horn clause into a Horn clause while
    [needed] more Horn clauses are wanted. *)
Fixpoint increase_spec (needed : nat) (clauses : list (list Z))
    : list (list Z) :=
  match clauses, needed with
  | [], _ => []
  | _, O => clauses
  | clause :: rest, S needed' =>
      if is_horn clause then clause :: increase_spec needed rest
      else negate_positives_but_last clause :: increase_spec needed' rest
  end.

(** The decrease pass in the words of the specification: walk the clauses
    in order; every clause that is Horn has its first two negative
    literals flipped, and counts against [excess] when that leaves it
    with two or more positive literals. *)
Fixpoint decrease_spec (excess : nat) (clauses : list (list Z))
    : list (list Z) :=
  match clauses, excess with
  | [], _ => []
  | _, O => clauses
  | clause :: rest, S excess' =>
      if is_horn clause then
        flip_first_negatives 2 clause
        :: decrease_spec (if decrease_eligible clause then excess'
                          else excess) rest
      else clause :: decrease_spec excess rest
  end.

(** Number of Horn clauses whose flip makes them non-Horn. *)
Definition eligible_count (clauses : list (list Z)) : nat :=
  length (filter (λ clause, decrease_eligible clause = true) clauses).

(** ** Satisfiability repairer *)

(** The local state of [make_satisfiable] while it walks the clauses: the
    assignment [dict] and the Horn-count tracker. *)
Record repair_state := RepairState {
  solution : gmap Z bool;
  current_horn_count : Z
}.

Definition with_count (st : repair_state) (count : Z) : repair_state :=
  {| solution := solution st; current_horn_count := count |}.

(** [[(i, lit) for i, lit in enumerate(clause) if lit > 0]] and its
    negative twin; both are computed once, before any flip. *)
Definition indexed_positives (clause : list Z) : list (nat * Z) :=
  filter (λ p : nat * Z, 0 < p.2) (enumerate clause).

Definition indexed_negatives (clause : list Z) : list (nat * Z) :=
  filter (λ p : nat * Z, p.2 < 0) (enumerate clause).

(** [for index, lit in positive_literals:
       if not is_clause_satisfied(clause, solution)
          and solution[abs(lit)] == False:
         clause[index] = -abs(lit)]
    ([and] evaluates its right operand only when the left one holds). *)
Fixpoint flip_false_positives (sol : gmap Z bool) (lits : list (nat * Z))
    (clause : list Z) : option (list Z) :=
  match lits with
  | [] => Some clause
  | (index, lit) :: rest =>
      sat ← is_clause_satisfied clause sol;
      if (sat : bool) then flip_false_positives sol rest clause
      else
        b ← sol !! Z.abs lit;
        if Bool.eqb b false
        then flip_false_positives sol rest (<[index := - Z.abs lit]> clause)
        else flip_false_positives sol rest clause
  end.

(** The same loop over the negative literals, with the satisfaction
    guard (lines 81-83). *)
Fixpoint flip_true_negatives_guarded (sol : gmap Z bool)
    (lits : list (nat * Z)) (clause : list Z) : option (list Z) :=
  match lits with
  | [] => Some clause
  | (index, lit) :: rest =>
      sat ← is_clause_satisfied clause sol;
      if (sat : bool) then flip_true_negatives_guarded sol rest clause
      else
        b ← sol !! Z.abs lit;
        if Bool.eqb b true
        then flip_true_negatives_guarded sol rest
               (<[index := Z.abs lit]> clause)
        else flip_true_negatives_guarded sol rest clause
  end.

(** [for index, lit in negative_literals:
       if solution[abs(lit)] == True: clause[index] = abs(lit)]
    (lines 91-93 and 101-103: no satisfaction guard). *)
Fixpoint flip_true_negatives (sol : gmap Z bool) (lits : list (nat * Z))
    (clause : list Z) : option (list Z) :=
  match lits with
  | [] => Some clause
  | (index, lit) :: rest =>
      b ← sol !! Z.abs lit;
      if Bool.eqb b true
      then flip_true_negatives sol rest (<[index := Z.abs lit]> clause)
      else flip_true_negatives sol rest clause
  end.

(** [if is_clause_satisfied(clause, solution)
       and len([lit for lit in clause if lit > 0]) <= 1:
      current_horn_count += 1] *)
Definition bump_if_horn (st : repair_state) (clause : list Z)
    : option repair_state :=
  sat ← is_clause_satisfied clause (solution st);
  Some (if (sat : bool) && bool_decide (length (positives clause) ≤ 1)%nat
        then with_count st (current_horn_count st + 1) else st).

(** [if is_clause_satisfied(clause, solution)
       and len([lit for lit in clause if lit > 0]) > 1:
      current_horn_count -= 1] *)
Definition drop_if_not_horn (st : repair_state) (clause : list Z)
    : option repair_state :=
  sat ← is_clause_satisfied clause (solution st);
  Some (if (sat : bool) && bool_decide (1 < length (positives clause))%nat
        then with_count st (current_horn_count st - 1) else st).

(** Lines 68-73: tracker at most the target, more than one positive
    literal. *)
Definition repair_le_many (st : repair_state)
    (positive_literals negative_literals : list (nat * Z))
    (clause : list Z) : option (repair_state * list Z) :=
  clause' ← flip_false_positives (solution st) positive_literals clause;
  st' ← bump_if_horn st clause';
  Some (st', clause').

(** Lines 74-86: tracker at most the target, at most one positive
    literal. *)
Definition repair_le_horn (st : repair_state)
    (positive_literals negative_literals : list (nat * Z))
    (clause : list Z) : option (repair_state * list Z) :=
  sat ← is_clause_satisfied clause (solution st);
  if (sat : bool) then Some (st, clause)
  else
    clause1 ← flip_false_positives (solution st) positive_literals clause;
    clause2 ←
      flip_true_negatives_guarded (solution st) negative_literals clause1;
    st' ← drop_if_not_horn st clause2;
    Some (st', clause2).

(** Lines 88-98: tracker above the target, more than one positive
    literal. *)
Definition repair_gt_many (st : repair_state)
    (positive_literals negative_literals : list (nat * Z))
    (clause : list Z) : option (repair_state * list Z) :=
  sat ← is_clause_satisfied clause (solution st);
  if (sat : bool) then Some (st, clause)
  else
    clause1 ← flip_true_negatives (solution st) negative_literals clause;
    clause2 ← flip_false_positives (solution st) positive_literals clause1;
    st' ← bump_if_horn st clause2;
    Some (st', clause2).

(** Lines 99-109: tracker above the target, at most one positive
    literal. *)
Definition repair_gt_horn (st : repair_state)
    (positive_literals negative_literals : list (nat * Z))
    (clause : list Z) : option (repair_state * list Z) :=
  sat ← is_clause_satisfied clause (solution st);
  if negb sat then
    clause1 ← flip_true_negatives (solution st) negative_literals clause;
    clause2 ← flip_false_positives (solution st) positive_literals clause1;
    st' ← drop_if_not_horn st clause2;
    Some (st', clause2)
  else Some (st, clause).

(** The body of [for clause in clauses] (lines 61-109). *)
Definition repair_clause (target_horn_count : Z) (st : repair_state)
    (clause : list Z) : option (repair_state * list Z) :=
  sat ← is_clause_satisfied clause (solution st);
  if (sat : bool) then Some (st, clause)
  else
    let positive_literals := indexed_positives clause in
    let negative_literals := indexed_negatives clause in
    if bool_decide (current_horn_count st ≤ target_horn_count) then
      if bool_decide (1 < length positive_literals)%nat
      then repair_le_many st positive_literals negative_literals clause
      else repair_le_horn st positive_literals negative_literals clause
    else
      if bool_decide (1 < length positive_literals)%nat
      then repair_gt_many st positive_literals negative_literals clause
      else repair_gt_horn st positive_literals negative_literals clause.

Fixpoint repair_loop (target_horn_count : Z) (st : repair_state)
    (clauses : list (list Z)) : option (repair_state * list (list Z)) :=
  match clauses with
  | [] => Some (st, [])
  | clause :: rest =>
      '(st', clause') ← repair_clause target_horn_count st clause;
      '(st'', rest') ← repair_loop target_horn_count st' rest;
      Some (st'', clause' :: rest')
  end.

(** [make_satisfiable] with the local state it ends in. *)
Definition make_satisfiable_run (clauses : list (list Z)) (num_vars : Z)
    (target_horn_count : Z) (choices : nat → bool)
    : option (repair_state * list (list Z)) :=
  let solution := generate_solution num_vars clauses choices in
  let current_horn_count := count_horn_clauses clauses in
  repair_loop target_horn_count
    {| solution := solution; current_horn_count := current_horn_count |}
    clauses.

Definition make_satisfiable (clauses : list (list Z)) (num_vars : Z)
    (target_horn_count : Z) (choices : nat → bool)
    : option (list (list Z)) :=
  snd <$> make_satisfiable_run clauses num_vars target_horn_count choices.

(** ** Variant generator *)

(** [generate_instance(i)] up to the clause list it serialises;
    [repair] is the outcome of [random.random() < 0.75]. *)
Definition generate_instance (clauses : list (list Z)) (num_vars step : Z)
    (i : Z) (repair : bool) (choices : nat → bool)
    : option (list (list Z)) :=
  let target_horn_clauses := i * step in
  '(modified_clauses, _) ← adjust_horn_count target_horn_clauses clauses;
  if repair
  then make_satisfiable modified_clauses num_vars target_horn_clauses choices
  else Some modified_clauses.

(** A formula is well formed when no clause is empty and every literal
    names a variable of [1..num_vars]. *)
Definition well_formed (num_vars : Z) (clauses : list (list Z)) : Prop :=
  Forall (λ clause,
            clause ≠ [] ∧ Forall (λ lit, 1 ≤ Z.abs lit ≤ num_vars) clause)
         clauses.

(** The repairer in the words of the specification. *)

(** The first positive literal becomes negative. *)
Fixpoint negate_first_positive (clause : list Z) : list Z :=
  match clause with
  | [] => []
  | lit :: rest =>
      if bool_decide (0 < lit) then - lit :: rest
      else lit :: negate_first_positive rest
  end.

(** The first negative literal becomes positive. *)
Definition flip_first_negative (clause : list Z) : list Z :=
  flip_first_negatives 1 clause.

(** The polarity of the first occurrence of [var] in a sequence of
    literals. *)
Fixpoint first_polarity (var : Z) (lits : list Z) : option bool :=
  match lits with
  | [] => None
  | lit :: rest =>
      if bool_decide (Z.abs lit = var) then Some (0 <? lit)
      else first_polarity var rest
  end.

(** The literal is false under the assignment. *)
Definition disagrees (sol : gmap Z bool) (lit : Z) : Prop :=
  sol !! Z.abs lit = Some (negb (0 <? lit)).

(** [clause'] is [clause] with some polarities changed: the same
    variable sits at every position, and a literal that differs from the
    one it replaces is true under the assignment. *)
Definition polarity_change (sol : gmap Z bool) (clause clause' : list Z)
    : Prop :=
  Z.abs <$> clause' = Z.abs <$> clause
  ∧ ∀ j lit', clause' !! j = Some lit' →
              clause !! j = Some lit' ∨ sol !! Z.abs lit' = Some (0 <? lit').

(** What the branches above the target make of an unsatisfied clause:
    with a negative literal, every negative literal is made positive;
    without one, the first positive literal is made negative. *)
Definition repair_gt_result (clause : list Z) : list Z :=
  if bool_decide (negatives clause = []) then negate_first_positive clause
  else Z.abs <$> clause.

(** What the branch of lines 74-86 makes of an unsatisfied clause: the
    positive literal is made negative, or, without one, the first
    negative literal is made positive. *)
Definition repair_le_horn_result (clause : list Z) : list Z :=
  if bool_decide (positives clause = []) then flip_first_negative clause
  else negate_first_positive clause.

(** What the loop body makes of an unsatisfied clause, branch by
    branch. *)
Definition repair_unsatisfied_result (target count : Z) (clause : list Z)
    : list Z :=
  if bool_decide (count ≤ target) then
    if bool_decide (1 < positive_count clause)%nat
    then negate_first_positive clause
    else repair_le_horn_result clause
  else repair_gt_result clause.

(** The two flip passes of the branches above the target as the
    specification words them: both stop flipping once the clause is
    satisfied. *)
Definition repair_gt_until_satisfied (sol : gmap Z bool) (clause : list Z)
    : option (list Z) :=
  clause1 ←
    flip_true_negatives_guarded sol (indexed_negatives clause) clause;
  flip_false_positives sol (indexed_positives clause) clause1.

(** The index list of a flip loop points at literals of the clause, up
    to polarity. *)
Definition indexes_agree (lits : list (nat * Z)) (clause : list Z) : Prop :=
  Forall (λ p : nat * Z, (Z.abs <$> clause) !! p.1 = Some (Z.abs p.2)) lits.

(** The frame of the repairer on a whole formula: the same number of
    clauses, each with the same number of literals and the same variable
    at every position, and every literal that differs from the one it
    replaces is true under the assignment. *)
Definition only_polarities_changed (sol : gmap Z bool)
    (clauses clauses' : list (list Z)) : Prop :=
  length clauses' = length clauses
  ∧ ∀ i clause clause',
      clauses !! i = Some clause → clauses' !! i = Some clause' →
      length clause' = length clause
      ∧ ∀ j lit lit',
          clause !! j = Some lit → clause' !! j = Some lit' →
          Z.abs lit' = Z.abs lit
          ∧ (lit' ≠ lit → sol !! Z.abs lit' = Some (0 <? lit')).

(** ** Variant targets *)

(** [step = max(num_clauses // count, 1)] *)
Definition variant_step (num_clauses count : Z) : option Z :=
  q ← py_floordiv num_clauses count; Some (Z.max q 1).

(** [target_horn_clauses = i * step], for [i] in [range(count)], in the
    order in which [pool.map] is handed the indices. *)
Definition variant_targets (num_clauses count : Z) : option (list Z) :=
  step ← variant_step num_clauses count;
  Some ((λ i, i * step) <$> py_range count).

(** ** Serialisation (the tail of [generate_instance]) *)

(** The line feed of ["\n"]. *)
Definition newline : string := String "010"%char "".

(** [str(z)] for an integer: decimal digits, with ["-"] in front of a
    negative number. *)
Definition py_str (z : Z) : string := pretty z.

(** [sep.join(parts)]. *)
Fixpoint py_join (sep : string) (parts : list string) : string :=
  match parts with
  | [] => ""
  | [part] => part
  | part :: rest => part +:+ sep +:+ py_join sep rest
  end.

(** [" ".join(map(str, clause)) + " 0\n"] *)
Definition clause_line (clause : list Z) : string :=
  py_join " " (py_str <$> clause) +:+ " 0" +:+ newline.

(** [cnf_string]: the header line, the marker line, then one line per
    clause, appended in order. *)
Definition cnf_string (header : string) (sat_clauses : list (list Z))
    : string :=
  fold_left (λ acc clause, acc +:+ clause_line clause) sat_clauses
            (header +:+ newline +:+ "c t mc" +:+ newline).

(** [n] characters ["0"]. *)
Fixpoint zeros (n : nat) : string :=
  match n with
  | O => ""
  | S n' => String "0"%char (zeros n')
  end.

(** [f"{i:03d}"]: the sign, then the digits padded with zeros on the
    left up to a width of three. *)
Definition py_format_03d (i : Z) : string :=
  let digits := pretty (Z.abs i) in
  let sign := if bool_decide (i < 0) then "-" else "" in
  sign +:+ zeros (3 - String.length sign - String.length digits)
       +:+ digits.

(** [f"{base_filename}_{i:03d}.cnf"], the name joined to the output
    folder. *)
Definition output_name (base_filename : string) (i : Z) : string :=
  base_filename +:+ "_" +:+ py_format_03d i +:+ ".cnf".

(** The character occurs in the string. *)
Fixpoint has_char (c : ascii) (s : string) : Prop :=
  match s with
  | EmptyString => False
  | String c' s' => c' = c ∨ has_char c s'
  end.

(** A character that is no digit. *)
Definition no_digit (c : ascii) : Prop :=
  c ∉ ["0"; "1"; "2"; "3"; "4"; "5"; "6"; "7"; "8"; "9"]%char.

(** ** The variants of one seed *)

(** [create_horn_instances] up to the formulas it writes: one
    [generate_instance] per index of [range(count)].  The header's two
    numbers are the arguments [num_vars] and [num_clauses]; the worker
    threads draw from one random source, so variant [i] sees some part
    of the draws, [repairs i] for its coin and [choices i] for its
    assignment.  The result is [None] when the call raises, as it does
    when any worker raises. *)
Definition create_horn_instances (clauses : list (list Z))
    (num_vars num_clauses count : Z)
    (repairs : Z → bool) (choices : Z → nat → bool)
    : option (list (list (list Z))) :=
  step ← variant_step num_clauses count;
  mapM (λ i, generate_instance clauses num_vars step i
               (repairs i) (choices i))
       (py_range count).

(** ** Vocabulary of the further properties *)

(** The same variable at every position of every clause. *)
Definition same_variables (clauses clauses' : list (list Z)) : Prop :=
  Forall2 (λ clause clause', Z.abs <$> clause' = Z.abs <$> clause)
          clauses clauses'.

(** Every literal is kept or goes from positive to negative. *)
Definition only_negated (clause clause' : list Z) : Prop :=
  Forall2 (λ lit lit', lit' = lit ∨ (0 < lit ∧ lit' = - lit))
          clause clause'.

(** Every literal is kept or goes from negative to positive. *)
Definition only_asserted (clause clause' : list Z) : Prop :=
  Forall2 (λ lit lit', lit' = lit ∨ (lit < 0 ∧ lit' = - lit))
          clause clause'.

(** The assignment makes some literal of every clause true. *)
Definition satisfies (sol : gmap Z bool) (clauses : list (list Z)) : Prop :=
  Forall (λ clause, is_clause_satisfied clause sol = Some true) clauses.

(** The literal is true under the assignment. *)
Definition agrees (sol : gmap Z bool) (lit : Z) : Prop :=
  sol !! Z.abs lit = Some (0 <? lit).

(** Number of clauses the assignment does not satisfy. *)
Definition unsatisfied_count (sol : gmap Z bool) (clauses : list (list Z))
    : nat :=
  length (filter (λ clause, is_clause_satisfied clause sol ≠ Some true)
                 clauses).

(** * Properties *)

Section classifier.

Lemma py_sum_ones {A} (xs : list A) :
  py_sum ((λ _, 1) <$> xs) = Z.of_nat (length xs).
Proof.
  unfold py_sum.
  assert (H : ∀ acc, fold_left Z.add ((λ _ : A, 1) <$> xs) acc
                     = acc + Z.of_nat (length xs)).
  { induction xs as [|x xs IH]; intros acc; simpl; [lia|].
    rewrite IH. lia. }
  rewrite H. lia.
Qed.

Lemma positives_length clause :
  length (positives clause) = positive_count clause.
Proof.
  induction clause as [|lit rest IH]; [done|].
  unfold positives in *. rewrite filter_cons. simpl.
  destruct (Z.ltb_spec 0 lit); case_decide; try lia; simpl; by rewrite IH.
Qed.

Lemma is_horn_positives clause :
  is_horn clause = true ↔ (length (positives clause) ≤ 1)%nat.
Proof.
  unfold is_horn. rewrite positives_length. apply Nat.leb_le.
Qed.

Lemma count_horn_clauses_cons clause rest :
  count_horn_clauses (clause :: rest)
  = (if is_horn clause then 1 else 0) + count_horn_clauses rest.
Proof.
  unfold count_horn_clauses. rewrite !py_sum_ones, filter_cons.
  pose proof (is_horn_positives clause) as Hh.
  destruct (is_horn clause); case_decide; simpl; try lia; naive_solver.
Qed.

Lemma count_horn_clauses_nil : count_horn_clauses [] = 0.
Proof. done. Qed.

Lemma count_horn_clauses_spec clauses :
  count_horn_clauses clauses = Z.of_nat (horn_count_spec clauses).
Proof.
  induction clauses as [|clause rest IH]; [done|].
  rewrite count_horn_clauses_cons, IH. simpl.
  destruct (is_horn clause); lia.
Qed.

Lemma positive_count_Permutation c1 c2 :
  c1 ≡ₚ c2 → positive_count c1 = positive_count c2.
Proof.
  induction 1 as [|x ? ? _ IH|x y ?|? ? ? _ IH1 _ IH2]; simpl.
  - done.
  - by rewrite IH.
  - by destruct (0 <? x), (0 <? y).
  - by rewrite IH1.
Qed.

Lemma horn_count_spec_Permutation cs1 cs2 :
  cs1 ≡ₚ cs2 → horn_count_spec cs1 = horn_count_spec cs2.
Proof.
  induction 1 as [|x ? ? _ IH|x y ?|? ? ? _ IH1 _ IH2]; simpl.
  - done.
  - by rewrite IH.
  - by destruct (is_horn x), (is_horn y).
  - by rewrite IH1.
Qed.

Lemma horn_count_spec_literal_order cs1 cs2 :
  Forall2 (≡ₚ) cs1 cs2 → horn_count_spec cs1 = horn_count_spec cs2.
Proof.
  induction 1 as [|c1 c2 cs1 cs2 Hc _ IH]; [done|].
  simpl. unfold is_horn. by rewrite (positive_count_Permutation _ _ Hc), IH.
Qed.

End classifier.

(** C8. [count_horn_clauses] returns exactly the number of clauses whose
    number of positive literals (literals [> 0]) is at most one.  The
    function only reads its argument: its result is an integer and the
    clause list is not part of it. *)
Theorem count_horn_clauses_correct (clauses : list (list Z)) :
  count_horn_clauses clauses
  = Z.of_nat (length (filter (λ clause, is_horn clause = true) clauses))
  ∧ count_horn_clauses clauses = Z.of_nat (horn_count_spec clauses).
Proof.
  split; [|apply count_horn_clauses_spec].
  induction clauses as [|clause rest IH]; [done|].
  rewrite count_horn_clauses_cons, IH, filter_cons.
  destruct (is_horn clause); case_decide; simpl; try lia; done.
Qed.

(** C9. The Horn count does not depend on the order of the literals inside
    a clause nor on the order of the clauses: permuting the literals of
    every clause ([reordered]) and then permuting the clauses gives the
    same count. *)
Theorem count_horn_clauses_permutation_invariant
    (clauses reordered shuffled : list (list Z)) :
  Forall2 (≡ₚ) clauses reordered →
  reordered ≡ₚ shuffled →
  count_horn_clauses shuffled = count_horn_clauses clauses.
Proof.
  intros Hlit Hcl. rewrite !count_horn_clauses_spec. f_equal.
  rewrite <- (horn_count_spec_Permutation _ _ Hcl).
  symmetry. by apply horn_count_spec_literal_order.
Qed.

Lemma count_horn_clauses_permutation_invariant_witness :
  count_horn_clauses [[3; -2; -1]; [2; 1]]
  = count_horn_clauses [[1; 2]; [-1; -2; 3]].
Proof.
  apply (count_horn_clauses_permutation_invariant
           [[1; 2]; [-1; -2; 3]] [[2; 1]; [3; -2; -1]]).
  - constructor; [apply Permutation_swap|].
    constructor; [|constructor].
    transitivity [3; -1; -2].
    + apply (Permutation_app_comm [-1; -2] [3]).
    + apply Permutation_skip, Permutation_swap.
  - apply Permutation_swap.
Defined.

(** ** The Horn-count adjuster *)

Section adjuster.

Lemma py_index_app_fresh x pre rest :
  x ∉ pre → py_index x (pre ++ x :: rest) = Some (length pre).
Proof.
  induction pre as [|y pre IH]; intros Hx; simpl.
  - by rewrite bool_decide_eq_true_2.
  - apply not_elem_of_cons in Hx as [Hne Hx].
    rewrite bool_decide_eq_false_2 by done. by rewrite IH.
Qed.

Lemma insert_app_middle {A} (pre rest : list A) (x y : A) :
  <[length pre := y]> (pre ++ x :: rest) = pre ++ y :: rest.
Proof.
  rewrite insert_app_r_alt by lia. by rewrite Nat.sub_diag.
Qed.

Lemma app_snoc {A} (pre rest : list A) (x : A) :
  pre ++ x :: rest = (pre ++ [x]) ++ rest.
Proof. by rewrite <- app_assoc. Qed.

Lemma positives_cons lit rest :
  positives (lit :: rest)
  = if bool_decide (0 < lit) then lit :: positives rest else positives rest.
Proof.
  unfold positives. rewrite filter_cons. by repeat case_decide.
Qed.

Lemma negatives_cons lit rest :
  negatives (lit :: rest)
  = if bool_decide (lit < 0) then lit :: negatives rest else negatives rest.
Proof.
  unfold negatives. rewrite filter_cons. by repeat case_decide.
Qed.

Lemma py_but_last_cons {A} (x : A) xs :
  xs ≠ [] → py_but_last (x :: xs) = x :: py_but_last xs.
Proof.
  unfold py_but_last. destruct xs as [|y ys]; [done|]. intros _. simpl.
  by rewrite Nat.sub_0_r.
Qed.

Lemma negate_positives_but_last_id clause :
  positives clause = [] → negate_positives_but_last clause = clause.
Proof.
  induction clause as [|lit rest IH]; [done|].
  rewrite positives_cons. simpl. case_bool_decide as Hp.
  - done.
  - intros Hr. rewrite IH by done.
    by rewrite bool_decide_eq_false_2 by tauto.
Qed.

(** The [index]-driven loop of the increase pass negates every
    positive literal but the last, whatever was already flipped in
    front of them. *)
Lemma flip_each_negate pre clause :
  Forall (λ y, y ≤ 0) pre →
  flip_each Z.opp (py_but_last (positives clause)) (pre ++ clause)
  = Some (pre ++ negate_positives_but_last clause).
Proof.
  revert pre. induction clause as [|lit rest IH]; intros pre Hpre.
  { done. }
  rewrite positives_cons. simpl. case_bool_decide as Hlit.
  - destruct (decide (positives rest = [])) as [Hnil|Hne].
    + rewrite Hnil. simpl. rewrite bool_decide_eq_false_2 by tauto.
      by rewrite negate_positives_but_last_id.
    + rewrite py_but_last_cons by done. simpl.
      rewrite py_index_app_fresh; simpl.
      * rewrite insert_app_middle, bool_decide_eq_true_2 by done.
        rewrite (app_snoc pre rest), (app_snoc pre (negate_positives_but_last rest)).
        apply IH. apply Forall_app; split; [done|].
        constructor; [lia|constructor].
      * intros Hin. rewrite Forall_forall in Hpre.
        specialize (Hpre _ Hin). simpl in Hpre. lia.
  - rewrite bool_decide_eq_false_2 by tauto.
    rewrite (app_snoc pre rest), (app_snoc pre (negate_positives_but_last rest)).
    apply IH. apply Forall_app; split; [done|].
    constructor; [lia|constructor].
Qed.

(** The [index]-driven loop of the decrease pass makes the first [n]
    negative literals positive. *)
Lemma flip_each_abs n pre clause :
  Forall (λ y, 0 ≤ y) pre →
  flip_each Z.abs (take n (negatives clause)) (pre ++ clause)
  = Some (pre ++ flip_first_negatives n clause).
Proof.
  revert n pre. induction clause as [|lit rest IH]; intros n pre Hpre.
  { by destruct n. }
  rewrite negatives_cons. simpl. case_bool_decide as Hlit.
  - destruct n as [|n]; [done|]. simpl.
    rewrite py_index_app_fresh; simpl.
    + rewrite insert_app_middle.
      rewrite (app_snoc pre rest), (app_snoc pre (flip_first_negatives _ rest)).
      apply IH. apply Forall_app; split; [done|].
      constructor; [lia|constructor].
    + intros Hin. rewrite Forall_forall in Hpre.
      specialize (Hpre _ Hin). simpl in Hpre. lia.
  - rewrite (app_snoc pre rest), (app_snoc pre (flip_first_negatives _ rest)).
    apply IH. apply Forall_app; split; [done|].
    constructor; [lia|constructor].
Qed.

Lemma positives_nil_count clause :
  positives clause = [] ↔ positive_count clause = 0%nat.
Proof.
  rewrite <- positives_length. split; [by intros ->|].
  apply length_zero_iff_nil.
Qed.

Lemma positive_count_negate clause :
  positive_count (negate_positives_but_last clause)
  = Nat.min 1 (positive_count clause).
Proof.
  induction clause as [|lit rest IH]; [done|]. simpl.
  pose proof (positives_nil_count rest) as Hnil.
  destruct (Z.ltb_spec 0 lit) as [Hlit|Hlit].
  - case_bool_decide as Hd.
    + destruct (Z.ltb_spec 0 (- lit)); [lia|].
      rewrite IH. destruct (positive_count rest); [tauto|lia].
    + destruct (Z.ltb_spec 0 lit); [|lia].
      rewrite IH.
      assert (positives rest = []) as ->%Hnil; [|done].
      destruct (decide (positives rest = [])); tauto.
  - rewrite bool_decide_eq_false_2 by lia.
    destruct (Z.ltb_spec 0 lit); [lia|]. by rewrite IH.
Qed.

Lemma is_horn_false clause :
  is_horn clause = false ↔ (1 < length (positives clause))%nat.
Proof.
  unfold is_horn. rewrite positives_length, Nat.leb_gt. done.
Qed.

Lemma negate_makes_horn clause :
  is_horn (negate_positives_but_last clause) = true.
Proof.
  unfold is_horn. rewrite positive_count_negate. apply Nat.leb_le. lia.
Qed.

Lemma non_horn_count_cons clause rest :
  non_horn_count (clause :: rest)
  = if is_horn clause then non_horn_count rest
    else S (non_horn_count rest).
Proof.
  unfold non_horn_count. rewrite filter_cons.
  destruct (is_horn clause); by case_decide.
Qed.

Lemma eligible_count_cons clause rest :
  eligible_count (clause :: rest)
  = if decrease_eligible clause then S (eligible_count rest)
    else eligible_count rest.
Proof.
  unfold eligible_count. rewrite filter_cons.
  destruct (decrease_eligible clause); by case_decide.
Qed.

Lemma increase_loop_done target clauses horn_count :
  target ≤ horn_count →
  increase_loop target clauses horn_count = Some (clauses, horn_count).
Proof.
  intros Hle. destruct clauses; [done|]. simpl.
  by rewrite bool_decide_eq_true_2.
Qed.

Lemma increase_spec_zero clauses : increase_spec 0 clauses = clauses.
Proof. by destruct clauses. Qed.

(** The increase loop computes [increase_spec] and its counter ends at
    the smaller of the target and the count it can reach. *)
Lemma increase_loop_spec target clauses horn_count :
  horn_count < target →
  increase_loop target clauses horn_count
  = Some (increase_spec (Z.to_nat (target - horn_count)) clauses,
          Z.min target (horn_count + Z.of_nat (non_horn_count clauses))).
Proof.
  revert horn_count.
  induction clauses as [|clause rest IH]; intros horn_count Hlt.
  { simpl. do 2 f_equal. unfold non_horn_count. simpl. lia. }
  simpl. rewrite bool_decide_eq_false_2 by lia.
  rewrite non_horn_count_cons.
  destruct (Z.to_nat (target - horn_count)) as [|n] eqn:Hn; [lia|].
  pose proof (is_horn_false clause) as Hnh.
  destruct (is_horn clause) eqn:Hh.
  - rewrite bool_decide_eq_false_2 by (intros ?%Hnh; done).
    rewrite IH, Hn by done. done.
  - rewrite bool_decide_eq_true_2 by (by apply Hnh).
    rewrite (flip_each_negate []) by constructor. simpl.
    destruct (decide (horn_count + 1 < target)) as [Hmore|Hstop].
    + rewrite IH by done. simpl.
      replace (Z.to_nat (target - (horn_count + 1))) with n by lia.
      do 2 f_equal. lia.
    + rewrite increase_loop_done by lia. simpl.
      replace n with 0%nat by lia. rewrite increase_spec_zero.
      do 2 f_equal. lia.
Qed.

Lemma count_increase_spec needed clauses :
  count_horn_clauses (increase_spec needed clauses)
  = count_horn_clauses clauses
    + Z.of_nat (Nat.min needed (non_horn_count clauses)).
Proof.
  revert needed.
  induction clauses as [|clause rest IH]; intros needed.
  { simpl. unfold non_horn_count. simpl. lia. }
  destruct needed as [|n]; [simpl; lia|]. cbn [increase_spec].
  rewrite non_horn_count_cons. destruct (is_horn clause) eqn:Hh.
  - rewrite !count_horn_clauses_cons, Hh, IH. lia.
  - rewrite !count_horn_clauses_cons, Hh, negate_makes_horn, IH. lia.
Qed.

Lemma increase_spec_length needed clauses :
  length (increase_spec needed clauses) = length clauses.
Proof.
  revert needed. induction clauses as [|clause rest IH]; intros [|n];
    simpl; try done.
  destruct (is_horn clause); simpl; by rewrite IH.
Qed.

Lemma increase_spec_lookup needed clauses i clause clause' :
  clauses !! i = Some clause →
  increase_spec needed clauses !! i = Some clause' →
  clause' = clause
  ∨ (is_horn clause = false ∧ clause' = negate_positives_but_last clause).
Proof.
  revert needed i.
  induction clauses as [|c rest IH]; intros needed i; [done|].
  destruct needed as [|n]; [simpl; intros; left; congruence|].
  simpl. destruct (is_horn c) eqn:Hh; destruct i as [|i]; simpl.
  - intros; left; congruence.
  - apply IH.
  - intros [= <-] [= <-]. by right.
  - apply IH.
Qed.

Lemma decrease_loop_done target clauses horn_count :
  horn_count ≤ target →
  decrease_loop target clauses horn_count = Some (clauses, horn_count).
Proof.
  intros Hle. destruct clauses; [done|]. simpl.
  by rewrite bool_decide_eq_true_2.
Qed.

Lemma decrease_spec_zero clauses : decrease_spec 0 clauses = clauses.
Proof. by destruct clauses. Qed.

Lemma decrease_eligible_horn clause :
  is_horn clause = true →
  decrease_eligible clause = true
  ↔ (2 ≤ length (positives (flip_first_negatives 2 clause)))%nat.
Proof.
  intros Hh. unfold decrease_eligible.
  rewrite Hh, positives_length, andb_true_l. apply Nat.leb_le.
Qed.

Lemma decrease_eligible_flipped clause :
  is_horn clause = true →
  is_horn (flip_first_negatives 2 clause) = negb (decrease_eligible clause).
Proof.
  intros Hh. unfold decrease_eligible, is_horn in *.
  rewrite Hh, andb_true_l.
  destruct (Nat.leb_spec (positive_count (flip_first_negatives 2 clause)) 1),
    (Nat.leb_spec 2 (positive_count (flip_first_negatives 2 clause)));
    simpl; try done; lia.
Qed.

(** The decrease loop computes [decrease_spec] and its counter ends at
    the larger of the target and the count it can reach. *)
Lemma decrease_loop_spec target clauses horn_count :
  target < horn_count →
  decrease_loop target clauses horn_count
  = Some (decrease_spec (Z.to_nat (horn_count - target)) clauses,
          Z.max target (horn_count - Z.of_nat (eligible_count clauses))).
Proof.
  revert horn_count.
  induction clauses as [|clause rest IH]; intros horn_count Hlt.
  { simpl. do 2 f_equal. unfold eligible_count. simpl. lia. }
  simpl. rewrite bool_decide_eq_false_2 by lia.
  rewrite eligible_count_cons.
  destruct (Z.to_nat (horn_count - target)) as [|n] eqn:Hn; [lia|].
  pose proof (is_horn_positives clause) as Hhp.
  destruct (is_horn clause) eqn:Hh.
  - rewrite bool_decide_eq_true_2 by (by apply Hhp).
    rewrite (flip_each_abs 2 []) by constructor. simpl.
    pose proof (decrease_eligible_horn clause Hh) as Hel.
    destruct (decrease_eligible clause) eqn:He.
    + rewrite bool_decide_eq_true_2 by (by apply Hel).
      destruct (decide (target < horn_count - 1)) as [Hmore|Hstop].
      * rewrite IH by done. simpl.
        replace (Z.to_nat (horn_count - 1 - target)) with n by lia.
        do 2 f_equal. lia.
      * rewrite decrease_loop_done by lia. simpl.
        replace n with 0%nat by lia. rewrite decrease_spec_zero.
        do 2 f_equal. lia.
    + rewrite bool_decide_eq_false_2 by (intros ?%Hel; done).
      rewrite IH, Hn by done. done.
  - rewrite bool_decide_eq_false_2 by (intros ?%Hhp; done).
    unfold decrease_eligible. rewrite Hh. simpl.
    rewrite IH, Hn by done. done.
Qed.

Lemma count_decrease_spec excess clauses :
  count_horn_clauses (decrease_spec excess clauses)
  = count_horn_clauses clauses
    - Z.of_nat (Nat.min excess (eligible_count clauses)).
Proof.
  revert excess.
  induction clauses as [|clause rest IH]; intros excess.
  { simpl. unfold eligible_count. simpl. lia. }
  destruct excess as [|n]; [simpl; lia|]. cbn [decrease_spec].
  rewrite eligible_count_cons. destruct (is_horn clause) eqn:Hh.
  - rewrite !count_horn_clauses_cons, Hh, decrease_eligible_flipped by done.
    destruct (decrease_eligible clause); cbn [negb]; rewrite IH; lia.
  - unfold decrease_eligible. rewrite Hh, andb_false_l.
    rewrite !count_horn_clauses_cons, Hh, IH. lia.
Qed.

Lemma decrease_spec_length excess clauses :
  length (decrease_spec excess clauses) = length clauses.
Proof.
  revert excess. induction clauses as [|clause rest IH]; intros [|n];
    simpl; try done.
  destruct (is_horn clause); simpl; by rewrite IH.
Qed.

End adjuster.

(** C2. When the Horn count [c] of a formula is below the target [t], the
    increase pass returns a formula whose Horn count is [min t (c + e)],
    [e] being the number of clauses with more than one positive literal.
    The pass never fails.  Every clause it changes had more than one
    positive literal and comes out with each positive literal but the
    last one in clause order negated: exactly one positive literal is
    left and the clause is Horn. *)
Theorem adjust_increase_postcondition
    (target : Z) (clauses : list (list Z)) :
  count_horn_clauses clauses < target →
  ∃ clauses',
    adjust_horn_count target clauses
    = Some (clauses',
            Z.min target (count_horn_clauses clauses
                          + Z.of_nat (non_horn_count clauses)))
    ∧ count_horn_clauses clauses'
      = Z.min target (count_horn_clauses clauses
                      + Z.of_nat (non_horn_count clauses))
    ∧ length clauses' = length clauses
    ∧ ∀ i clause clause',
        clauses !! i = Some clause →
        clauses' !! i = Some clause' →
        clause' ≠ clause →
        (1 < positive_count clause)%nat
        ∧ clause' = negate_positives_but_last clause
        ∧ positive_count clause' = 1%nat
        ∧ is_horn clause' = true.
Proof.
  intros Hlt.
  exists (increase_spec (Z.to_nat (target - count_horn_clauses clauses))
                        clauses).
  split; [|split; [|split]].
  - unfold adjust_horn_count. rewrite bool_decide_eq_true_2 by done.
    by apply increase_loop_spec.
  - rewrite count_increase_spec. lia.
  - apply increase_spec_length.
  - intros i clause clause' Hi Hi' Hne.
    destruct (increase_spec_lookup _ _ _ _ _ Hi Hi') as [?|[Hnh ->]];
      [done|].
    assert (1 < positive_count clause)%nat as Hmany.
    { apply is_horn_false in Hnh. by rewrite positives_length in Hnh. }
    split; [done|]. split; [done|]. split.
    + rewrite positive_count_negate. lia.
    + apply negate_makes_horn.
Qed.

Lemma adjust_increase_postcondition_witness :
  count_horn_clauses [[1; 2; 1]; [-1; -2; 3]; [3; 2; 1]] < 2
  ∧ ∃ clauses',
      adjust_horn_count 2 [[1; 2; 1]; [-1; -2; 3]; [3; 2; 1]]
      = Some (clauses', 2)
      ∧ count_horn_clauses clauses' = 2.
Proof.
  assert (Hlt : count_horn_clauses [[1; 2; 1]; [-1; -2; 3]; [3; 2; 1]] < 2)
    by reflexivity.
  split; [exact Hlt|].
  destruct (adjust_increase_postcondition 2 _ Hlt)
    as (clauses' & Hrun & Hcount & _).
  exists clauses'. split; [exact Hrun|exact Hcount].
Defined.

(** C3. When the Horn count [c] of a formula is above the target [t], the
    decrease pass walks the clauses in order; each clause that is Horn
    when visited has its first two (or only) negative literals in clause
    order made positive, the running count drops by one exactly when
    that leaves the clause with two or more positive literals, and the
    walk stops when the running count reaches [t].  The pass never
    fails, and the Horn count of its result is [max t (c - e)], [e] being
    the number of Horn clauses whose flip leaves them with two or more
    positive literals. *)
Theorem adjust_decrease_postcondition
    (target : Z) (clauses : list (list Z)) :
  target < count_horn_clauses clauses →
  ∃ clauses',
    adjust_horn_count target clauses
    = Some (clauses',
            Z.max target (count_horn_clauses clauses
                          - Z.of_nat (eligible_count clauses)))
    ∧ clauses'
      = decrease_spec (Z.to_nat (count_horn_clauses clauses - target))
                      clauses
    ∧ count_horn_clauses clauses'
      = Z.max target (count_horn_clauses clauses
                      - Z.of_nat (eligible_count clauses)).
Proof.
  intros Hlt. eexists. split; [|split; [reflexivity|]].
  - unfold adjust_horn_count. rewrite bool_decide_eq_false_2 by lia.
    rewrite bool_decide_eq_true_2 by done.
    by apply decrease_loop_spec.
  - rewrite count_decrease_spec. lia.
Qed.

Lemma adjust_decrease_postcondition_witness :
  0 < count_horn_clauses [[-1; -2; -1; -3]; [-1; -2; 3]; [3; 2; 1]; [-1]]
  ∧ ∃ clauses',
      adjust_horn_count 0 [[-1; -2; -1; -3]; [-1; -2; 3]; [3; 2; 1]; [-1]]
      = Some (clauses', 1)
      ∧ count_horn_clauses clauses' = 1.
Proof.
  assert (Hlt : 0 < count_horn_clauses
                      [[-1; -2; -1; -3]; [-1; -2; 3]; [3; 2; 1]; [-1]])
    by reflexivity.
  split; [exact Hlt|].
  destruct (adjust_decrease_postcondition 0 _ Hlt)
    as (clauses' & Hrun & _ & Hcount).
  exists clauses'. split; [exact Hrun|exact Hcount].
Defined.

(** ** The assignment builder *)

Section assignment.

Variable num_vars : Z.

Local Abbreviation in_range := (in_range num_vars).
Local Abbreviation literals_in_range := (literals_in_range num_vars).

Lemma in_range_insert sol var b :
  in_range sol → 1 ≤ var ≤ num_vars → in_range (<[var := b]> sol).
Proof.
  intros Hsol Hvar k. rewrite lookup_insert. case_decide; [by subst|].
  apply Hsol.
Qed.

(** An assignment with [num_vars] keys, all in range, has every
    variable of the range. *)
Lemma in_range_full sol var :
  in_range sol → Z.of_nat (size sol) = num_vars →
  1 ≤ var ≤ num_vars → is_Some (sol !! var).
Proof.
  intros Hsol Hsize Hvar.
  assert (Heq : dom sol = (list_to_set (seqZ 1 num_vars) : gset Z)).
  { apply set_subseteq_size_eq.
    - intros k Hk. apply elem_of_list_to_set, elem_of_seqZ.
      apply elem_of_dom, Hsol in Hk. lia.
    - rewrite size_list_to_set by apply NoDup_seqZ.
      rewrite length_seqZ, size_dom. lia. }
  apply elem_of_dom. rewrite Heq.
  apply elem_of_list_to_set, elem_of_seqZ. lia.
Qed.

Lemma scan_literals_full lits sol :
  in_range sol → Z.of_nat (size sol) = num_vars →
  literals_in_range lits → scan_literals lits sol = sol.
Proof.
  intros Hsol Hsize. induction 1 as [|lit rest Hlit _ IH]; [done|].
  simpl. destruct (in_range_full sol (Z.abs lit) Hsol Hsize Hlit) as [b ->].
  apply IH.
Qed.

Lemma scan_literals_app lits1 lits2 sol :
  scan_literals (lits1 ++ lits2) sol
  = scan_literals lits2 (scan_literals lits1 sol).
Proof.
  revert sol. induction lits1 as [|lit rest IH]; intros sol; [done|].
  simpl. apply IH.
Qed.

Lemma scan_literals_lookup lits sol var :
  scan_literals lits sol !! var
  = match sol !! var with
    | Some b => Some b
    | None => first_polarity var lits
    end.
Proof.
  revert sol. induction lits as [|lit rest IH]; intros sol; simpl.
  { by destruct (sol !! var). }
  rewrite IH. destruct (sol !! Z.abs lit) as [b|] eqn:Hlit.
  - case_bool_decide as Hv; [|done]. subst var. by rewrite Hlit.
  - rewrite lookup_insert. case_decide as Hd.
    + subst var. rewrite Hlit. by rewrite bool_decide_eq_true_2.
    + rewrite bool_decide_eq_false_2 by done. done.
Qed.

Lemma first_polarity_Some var lits b :
  first_polarity var lits = Some b → ∃ lit, lit ∈ lits ∧ Z.abs lit = var.
Proof.
  induction lits as [|lit rest IH]; [done|]. simpl.
  case_bool_decide as Hv.
  - intros _. exists lit. split; [left|done].
  - intros (l & Hl & Habs)%IH. exists l. split; [by right|done].
Qed.

Lemma scan_literals_in_range lits sol :
  in_range sol → literals_in_range lits →
  in_range (scan_literals lits sol).
Proof.
  intros Hsol Hlits var. rewrite scan_literals_lookup.
  destruct (sol !! var) as [b|] eqn:Hv.
  - intros _. apply Hsol. by rewrite Hv.
  - intros [b (lit & Hin & <-)%first_polarity_Some].
    unfold literals_in_range in Hlits. rewrite Forall_forall in Hlits.
    by apply Hlits.
Qed.

(** On literals in range the early exit of the inner loop changes
    nothing: it is only taken once every variable is set. *)
Lemma scan_clause_spec clause sol :
  in_range sol → literals_in_range clause →
  scan_clause num_vars clause sol = scan_literals clause sol.
Proof.
  intros Hsol Hcl. revert sol Hsol.
  induction Hcl as [|lit rest Hlit Hrest IH]; intros sol Hsol; [done|].
  simpl. destruct (sol !! Z.abs lit) as [b|] eqn:Hv; [by apply IH|].
  pose proof (in_range_insert sol (Z.abs lit) (0 <? lit) Hsol Hlit) as Hins.
  case_bool_decide as Hsize.
  - symmetry. by apply scan_literals_full.
  - by apply IH.
Qed.

(** Nor does the early exit of the outer loop. *)
Lemma scan_clauses_spec clauses sol :
  in_range sol → Forall literals_in_range clauses →
  scan_clauses num_vars clauses sol = scan_literals (concat clauses) sol.
Proof.
  intros Hsol Hcl. revert sol Hsol.
  induction Hcl as [|clause rest Hclause Hrest IH]; intros sol Hsol; [done|].
  simpl. rewrite scan_literals_app, scan_clause_spec by done.
  pose proof (scan_literals_in_range clause sol Hsol Hclause) as Hin.
  case_bool_decide as Hsize.
  - symmetry. apply scan_literals_full; [done..|].
    apply Forall_concat, Hrest.
  - by apply IH.
Qed.

Lemma fill_unset_keeps choices vars sol drawn var b :
  sol !! var = Some b →
  fill_unset choices vars sol drawn !! var = Some b.
Proof.
  revert sol drawn. induction vars as [|u rest IH]; intros sol drawn Hv.
  { done. }
  simpl. destruct (sol !! u) eqn:Hu; [by apply IH|].
  apply IH. rewrite lookup_insert_ne; [done|]. congruence.
Qed.

Lemma fill_unset_is_Some choices vars sol drawn var :
  is_Some (fill_unset choices vars sol drawn !! var)
  ↔ is_Some (sol !! var) ∨ var ∈ vars.
Proof.
  revert sol drawn. induction vars as [|u rest IH]; intros sol drawn.
  { simpl. rewrite elem_of_nil. tauto. }
  simpl. rewrite elem_of_cons. destruct (sol !! u) eqn:Hu.
  - rewrite IH. split; [tauto|]. intros [?|[->|?]]; try tauto.
    left. by rewrite Hu.
  - rewrite IH, lookup_insert. case_decide as Hd.
    + subst. split; [tauto|]. intros _. left. done.
    + split; [tauto|]. intros [?|[?|?]]; try tauto. congruence.
Qed.

Lemma filter_unset_insert (sol : gmap Z bool) u b (vars : list Z) :
  u ∉ vars →
  filter (λ w, <[u := b]> sol !! w = None) vars
  = filter (λ w, sol !! w = None) vars.
Proof.
  induction vars as [|w vars IH]; [done|].
  intros [Hne Hu]%not_elem_of_cons. rewrite !filter_cons, IH by done.
  rewrite lookup_insert_ne by done. done.
Qed.

(** A variable still unset when the filling loop reaches it takes the
    draw numbered by the unset variables met before it. *)
Lemma fill_unset_draw choices pre post sol drawn var :
  NoDup (pre ++ var :: post) →
  sol !! var = None →
  fill_unset choices (pre ++ var :: post) sol drawn !! var
  = Some (choices (drawn + length (filter (λ u, sol !! u = None) pre))%nat).
Proof.
  revert sol drawn. induction pre as [|u pre IH]; intros sol drawn Hnd Hv.
  { simpl. rewrite Hv, Nat.add_0_r. apply fill_unset_keeps.
    apply lookup_insert_eq. }
  simpl in Hnd. apply NoDup_cons in Hnd as [Hu Hnd].
  assert (u ≠ var) as Hne.
  { intros ->. apply Hu. apply elem_of_app. right. left. }
  simpl. rewrite filter_cons. destruct (sol !! u) as [b|] eqn:Hsu.
  - rewrite decide_False by done. by apply IH.
  - rewrite decide_True by done. rewrite IH; [|done|].
    + rewrite filter_unset_insert.
      * simpl. do 2 f_equal. lia.
      * intros Hin. apply Hu. apply elem_of_app. by left.
    + rewrite lookup_insert_ne; done.
Qed.

Lemma seqZ_split var :
  1 ≤ var ≤ num_vars →
  seqZ 1 num_vars
  = seqZ 1 (var - 1) ++ var :: seqZ (var + 1) (num_vars - var).
Proof.
  intros Hv.
  replace num_vars with ((var - 1) + (1 + (num_vars - var))) at 1 by lia.
  rewrite seqZ_app by lia. f_equal.
  rewrite seqZ_cons by lia. f_equal; [lia|]. f_equal; lia.
Qed.

End assignment.

(** C7. On a formula whose literals all name variables of [1..num_vars],
    [generate_solution] returns an assignment whose keys are exactly the
    variables [1..num_vars].  A variable that occurs in the formula has
    the polarity of its first occurrence in clause order; a variable that
    does not occur has a random draw, the one numbered by the
    non-occurring variables smaller than it. *)
Theorem generate_solution_total_first_occurrence
    (num_vars : Z) (clauses : list (list Z)) (choices : nat → bool) :
  Forall (literals_in_range num_vars) clauses →
  (∀ var, is_Some (generate_solution num_vars clauses choices !! var)
          ↔ 1 ≤ var ≤ num_vars)
  ∧ (∀ var b, first_polarity var (concat clauses) = Some b →
              generate_solution num_vars clauses choices !! var = Some b)
  ∧ (∀ var, 1 ≤ var ≤ num_vars →
            first_polarity var (concat clauses) = None →
            generate_solution num_vars clauses choices !! var
            = Some (choices
                      (length
                         (filter (λ u, first_polarity u (concat clauses)
                                        = None)
                                 (seqZ 1 (var - 1)))))).
Proof.
  intros Hwf. unfold generate_solution.
  assert (Hempty : in_range num_vars ∅).
  { intros var. rewrite lookup_empty. by intros [? ?]. }
  rewrite scan_clauses_spec by done.
  assert (Hscan : ∀ var, scan_literals (concat clauses) ∅ !! var
                         = first_polarity var (concat clauses)).
  { intros var. by rewrite scan_literals_lookup, lookup_empty. }
  split; [|split].
  - intros var. rewrite fill_unset_is_Some, elem_of_seqZ. split.
    + intros [Hs|Hr]; [|lia].
      eapply scan_literals_in_range; [exact Hempty| |exact Hs].
      apply Forall_concat, Hwf.
    + intros Hr. right. lia.
  - intros var b Hfirst. apply fill_unset_keeps. by rewrite Hscan.
  - intros var Hr Hfirst. rewrite (seqZ_split num_vars var Hr).
    rewrite fill_unset_draw.
    + simpl. do 3 f_equal. apply list_filter_iff. intros u.
      by rewrite Hscan.
    + rewrite <- seqZ_split by done. apply NoDup_seqZ.
    + by rewrite Hscan.
Qed.

Lemma generate_solution_total_first_occurrence_witness :
  Forall (literals_in_range 4) [[-2; 1]; [2; -1]]
  ∧ generate_solution 4 [[-2; 1]; [2; -1]] (λ n, Nat.even n) !! 2
    = Some false
  ∧ generate_solution 4 [[-2; 1]; [2; -1]] (λ n, Nat.even n) !! 4
    = Some false
  ∧ ¬ is_Some (generate_solution 4 [[-2; 1]; [2; -1]] (λ n, Nat.even n) !! 5).
Proof.
  assert (Hwf : Forall (literals_in_range 4) [[-2; 1]; [2; -1]]).
  { repeat constructor; simpl; lia. }
  destruct (generate_solution_total_first_occurrence
              4 [[-2; 1]; [2; -1]] (λ n, Nat.even n) Hwf)
    as (Hdom & Hfirst & Hrand).
  split; [exact Hwf|]. split; [|split].
  - apply Hfirst. reflexivity.
  - rewrite Hrand; [reflexivity|lia|reflexivity].
  - rewrite Hdom. lia.
Defined.

(** ** The satisfiability repairer *)

Section repair_of_unsatisfied.

Variable sol : gmap Z bool.

Lemma is_clause_satisfied_false clause :
  is_clause_satisfied clause sol = Some false
  ↔ Forall (disagrees sol) clause.
Proof.
  unfold disagrees. induction clause as [|lit rest IH]; simpl.
  { split; [constructor|done]. }
  rewrite Forall_cons, <- IH. destruct (sol !! Z.abs lit) as [b|]; simpl.
  - destruct b, (0 <? lit); simpl; split; try tauto; try done;
      intros [[=] _].
  - split; [done|]. by intros [? _].
Qed.

Lemma is_clause_satisfied_app pre suf :
  Forall (disagrees sol) pre →
  is_clause_satisfied (pre ++ suf) sol = is_clause_satisfied suf sol.
Proof.
  induction 1 as [|lit pre Hlit _ IH]; [done|]. simpl.
  unfold disagrees in Hlit. rewrite Hlit. simpl.
  by destruct (0 <? lit).
Qed.

Lemma is_clause_satisfied_total clause :
  Forall (λ lit, is_Some (sol !! Z.abs lit)) clause →
  is_Some (is_clause_satisfied clause sol).
Proof.
  induction 1 as [|lit rest [b Hb] _ IH]; simpl; [done|].
  rewrite Hb. simpl. by destruct (Bool.eqb b (0 <? lit)).
Qed.

(** Once the clause is satisfied the guarded loops leave it alone. *)
Lemma flip_false_positives_skip lits clause :
  is_clause_satisfied clause sol = Some true →
  flip_false_positives sol lits clause = Some clause.
Proof.
  intros Hsat. induction lits as [|[index lit] rest IH]; [done|].
  simpl. rewrite Hsat. simpl. exact IH.
Qed.

Lemma flip_true_negatives_guarded_skip lits clause :
  is_clause_satisfied clause sol = Some true →
  flip_true_negatives_guarded sol lits clause = Some clause.
Proof.
  intros Hsat. induction lits as [|[index lit] rest IH]; [done|].
  simpl. rewrite Hsat. simpl. exact IH.
Qed.

Lemma filter_positive_enumerate_cons start lit (rest : list Z) :
  filter (λ p : nat * Z, 0 < p.2) (enumerate_from start (lit :: rest))
  = if bool_decide (0 < lit)
    then (start, lit)
         :: filter (λ p : nat * Z, 0 < p.2) (enumerate_from (S start) rest)
    else filter (λ p : nat * Z, 0 < p.2) (enumerate_from (S start) rest).
Proof. simpl. rewrite filter_cons. simpl. by repeat case_decide. Qed.

Lemma filter_negative_enumerate_cons start lit (rest : list Z) :
  filter (λ p : nat * Z, p.2 < 0) (enumerate_from start (lit :: rest))
  = if bool_decide (lit < 0)
    then (start, lit)
         :: filter (λ p : nat * Z, p.2 < 0) (enumerate_from (S start) rest)
    else filter (λ p : nat * Z, p.2 < 0) (enumerate_from (S start) rest).
Proof. simpl. rewrite filter_cons. simpl. by repeat case_decide. Qed.

Lemma satisfied_at pre lit rest :
  Forall (disagrees sol) pre →
  sol !! Z.abs lit = Some (0 <? lit) →
  is_clause_satisfied (pre ++ lit :: rest) sol = Some true.
Proof.
  intros Hpre Hlit. rewrite is_clause_satisfied_app by done. simpl.
  rewrite Hlit. simpl. by rewrite Bool.eqb_reflx.
Qed.

Lemma disagrees_positive lit :
  disagrees sol lit → 0 < lit → sol !! Z.abs lit = Some false.
Proof.
  unfold disagrees. intros -> Hpos. by destruct (Z.ltb_spec 0 lit); [|lia].
Qed.

Lemma disagrees_negative lit :
  disagrees sol lit → lit < 0 → sol !! Z.abs lit = Some true.
Proof.
  unfold disagrees. intros -> Hneg. by destruct (Z.ltb_spec 0 lit); [lia|].
Qed.

(** On an unsatisfied clause the guarded loop over the positive
    literals flips the first of them and stops. *)
Lemma flip_false_positives_unsat pre suf :
  Forall (disagrees sol) (pre ++ suf) →
  flip_false_positives sol
    (filter (λ p : nat * Z, 0 < p.2) (enumerate_from (length pre) suf))
    (pre ++ suf)
  = Some (pre ++ negate_first_positive suf).
Proof.
  revert pre. induction suf as [|lit rest IH]; intros pre Hun; [done|].
  rewrite filter_positive_enumerate_cons. cbn [negate_first_positive].
  case_bool_decide as Hlit.
  - cbn [flip_false_positives].
    apply is_clause_satisfied_false in Hun as Hsat. rewrite Hsat. simpl.
    apply Forall_app in Hun as [Hpre Hsuf].
    apply Forall_cons in Hsuf as [Hd Hrest].
    rewrite (disagrees_positive lit Hd Hlit). simpl.
    rewrite insert_app_middle.
    replace (- Z.abs lit) with (- lit) by lia.
    apply flip_false_positives_skip, satisfied_at; [done|].
    rewrite Z.abs_opp, (disagrees_positive lit Hd Hlit).
    by destruct (Z.ltb_spec 0 (- lit)); [lia|].
  - rewrite (app_snoc pre rest), (app_snoc pre (negate_first_positive rest)).
    replace (S (length pre)) with (length (pre ++ [lit]))
      by (rewrite length_app; simpl; lia).
    apply IH. by rewrite <- app_snoc.
Qed.

(** On an unsatisfied clause the guarded loop over the negative
    literals flips the first of them and stops. *)
Lemma flip_true_negatives_guarded_unsat pre suf :
  Forall (disagrees sol) (pre ++ suf) →
  flip_true_negatives_guarded sol
    (filter (λ p : nat * Z, p.2 < 0) (enumerate_from (length pre) suf))
    (pre ++ suf)
  = Some (pre ++ flip_first_negatives 1 suf).
Proof.
  revert pre. induction suf as [|lit rest IH]; intros pre Hun; [done|].
  rewrite filter_negative_enumerate_cons. cbn [flip_first_negatives].
  case_bool_decide as Hlit.
  - cbn [flip_true_negatives_guarded].
    apply is_clause_satisfied_false in Hun as Hsat. rewrite Hsat. simpl.
    apply Forall_app in Hun as [Hpre Hsuf].
    apply Forall_cons in Hsuf as [Hd Hrest].
    rewrite (disagrees_negative lit Hd Hlit). simpl.
    rewrite insert_app_middle.
    assert (flip_first_negatives 0 rest = rest) as ->.
    { clear. induction rest as [|x rest IH]; [done|]. simpl.
      case_bool_decide; [done|]. by rewrite IH. }
    apply flip_true_negatives_guarded_skip, satisfied_at; [done|].
    replace (Z.abs (Z.abs lit)) with (Z.abs lit) by lia.
    rewrite (disagrees_negative lit Hd Hlit).
    by destruct (Z.ltb_spec 0 (Z.abs lit)); [|lia].
  - rewrite (app_snoc pre rest), (app_snoc pre (flip_first_negatives 1 rest)).
    replace (S (length pre)) with (length (pre ++ [lit]))
      by (rewrite length_app; simpl; lia).
    apply IH. by rewrite <- app_snoc.
Qed.

(** The unguarded loop makes every negative literal of an unsatisfied
    clause positive. *)
Lemma flip_true_negatives_unsat pre suf :
  Forall (disagrees sol) suf →
  flip_true_negatives sol
    (filter (λ p : nat * Z, p.2 < 0) (enumerate_from (length pre) suf))
    (pre ++ suf)
  = Some (pre ++ (Z.abs <$> suf)).
Proof.
  revert pre. induction suf as [|lit rest IH]; intros pre Hun; [done|].
  rewrite filter_negative_enumerate_cons.
  apply Forall_cons in Hun as [Hd Hrest].
  rewrite fmap_cons. case_bool_decide as Hlit.
  - cbn [flip_true_negatives].
    rewrite (disagrees_negative lit Hd Hlit). simpl.
    rewrite insert_app_middle.
    rewrite (app_snoc pre rest), (app_snoc pre (Z.abs <$> rest)).
    replace (S (length pre)) with (length (pre ++ [Z.abs lit]))
      by (rewrite length_app; simpl; lia).
    by apply IH.
  - replace (Z.abs lit) with lit by lia.
    rewrite (app_snoc pre rest), (app_snoc pre (Z.abs <$> rest)).
    replace (S (length pre)) with (length (pre ++ [lit]))
      by (rewrite length_app; simpl; lia).
    by apply IH.
Qed.

Lemma flip_false_positives_clause clause :
  Forall (disagrees sol) clause →
  flip_false_positives sol (indexed_positives clause) clause
  = Some (negate_first_positive clause).
Proof. apply (flip_false_positives_unsat [] clause). Qed.

Lemma flip_true_negatives_guarded_clause clause :
  Forall (disagrees sol) clause →
  flip_true_negatives_guarded sol (indexed_negatives clause) clause
  = Some (flip_first_negatives 1 clause).
Proof. apply (flip_true_negatives_guarded_unsat [] clause). Qed.

Lemma flip_true_negatives_clause clause :
  Forall (disagrees sol) clause →
  flip_true_negatives sol (indexed_negatives clause) clause
  = Some (Z.abs <$> clause).
Proof. apply (flip_true_negatives_unsat [] clause). Qed.

Lemma filter_positive_enumerate_length start (clause : list Z) :
  length (filter (λ p : nat * Z, 0 < p.2) (enumerate_from start clause))
  = length (positives clause).
Proof.
  revert start. induction clause as [|lit rest IH]; intros start; [done|].
  rewrite filter_positive_enumerate_cons, positives_cons.
  case_bool_decide; simpl; by rewrite IH.
Qed.

Lemma negate_first_positive_id clause :
  positives clause = [] → negate_first_positive clause = clause.
Proof.
  induction clause as [|lit rest IH]; [done|].
  rewrite positives_cons. simpl. case_bool_decide; [done|].
  intros Hr. by rewrite IH.
Qed.

Lemma flip_first_negatives_id n clause :
  negatives clause = [] → flip_first_negatives n clause = clause.
Proof.
  induction clause as [|lit rest IH]; [done|].
  rewrite negatives_cons. simpl. case_bool_decide; [done|].
  intros Hr. by rewrite IH.
Qed.

Lemma abs_id clause : negatives clause = [] → Z.abs <$> clause = clause.
Proof.
  induction clause as [|lit rest IH]; [done|].
  rewrite negatives_cons, fmap_cons. case_bool_decide; [done|].
  intros Hr. rewrite IH by done. f_equal. lia.
Qed.

Lemma negate_first_positive_abs clause :
  Z.abs <$> negate_first_positive clause = Z.abs <$> clause.
Proof.
  induction clause as [|lit rest IH]; [done|]. cbn [negate_first_positive].
  case_bool_decide; rewrite !fmap_cons; [f_equal; lia|]. by rewrite IH.
Qed.

Lemma flip_first_negatives_abs n clause :
  Z.abs <$> flip_first_negatives n clause = Z.abs <$> clause.
Proof.
  revert n. induction clause as [|lit rest IH]; intros n; [done|].
  cbn [flip_first_negatives].
  case_bool_decide; [destruct n|]; rewrite !fmap_cons, ?IH; try done.
  f_equal. lia.
Qed.

Lemma abs_abs (clause : list Z) :
  Z.abs <$> (Z.abs <$> clause) = Z.abs <$> clause.
Proof.
  rewrite <- list_fmap_compose. apply list_fmap_ext. intros _ x _.
  simpl. lia.
Qed.

Lemma is_clause_satisfied_cons lit rest :
  disagrees sol lit →
  is_clause_satisfied (lit :: rest) sol = is_clause_satisfied rest sol.
Proof.
  intros Hd. apply (is_clause_satisfied_app [lit]). by constructor.
Qed.

Lemma negate_first_positive_sat clause :
  Forall (disagrees sol) clause → positives clause ≠ [] →
  is_clause_satisfied (negate_first_positive clause) sol = Some true.
Proof.
  induction 1 as [|lit rest Hd Hrest IH]; [done|].
  rewrite positives_cons. cbn [negate_first_positive].
  case_bool_decide as Hlit.
  - intros _. apply (satisfied_at []); [constructor|].
    rewrite Z.abs_opp, (disagrees_positive lit Hd Hlit).
    by destruct (Z.ltb_spec 0 (- lit)); [lia|].
  - intros Hr. rewrite is_clause_satisfied_cons by done. by apply IH.
Qed.

Lemma flip_first_negative_sat clause :
  Forall (disagrees sol) clause → negatives clause ≠ [] →
  is_clause_satisfied (flip_first_negatives 1 clause) sol = Some true.
Proof.
  induction 1 as [|lit rest Hd Hrest IH]; [done|].
  rewrite negatives_cons. cbn [flip_first_negatives].
  case_bool_decide as Hlit.
  - intros _. apply (satisfied_at []); [constructor|].
    replace (Z.abs (Z.abs lit)) with (Z.abs lit) by lia.
    rewrite (disagrees_negative lit Hd Hlit).
    by destruct (Z.ltb_spec 0 (Z.abs lit)); [|lia].
  - intros Hr. rewrite is_clause_satisfied_cons by done. by apply IH.
Qed.

Lemma abs_sat clause :
  Forall (disagrees sol) clause → negatives clause ≠ [] →
  is_clause_satisfied (Z.abs <$> clause) sol = Some true.
Proof.
  induction 1 as [|lit rest Hd Hrest IH]; [done|].
  rewrite negatives_cons, fmap_cons. case_bool_decide as Hlit.
  - intros _. apply (satisfied_at []); [constructor|].
    replace (Z.abs (Z.abs lit)) with (Z.abs lit) by lia.
    rewrite (disagrees_negative lit Hd Hlit).
    by destruct (Z.ltb_spec 0 (Z.abs lit)); [|lia].
  - intros Hr. replace (Z.abs lit) with lit by lia.
    rewrite is_clause_satisfied_cons by done. by apply IH.
Qed.

Lemma lookups_defined_same_vars clause clause' :
  Z.abs <$> clause' = Z.abs <$> clause →
  Forall (λ lit, is_Some (sol !! Z.abs lit)) clause →
  Forall (λ lit, is_Some (sol !! Z.abs lit)) clause'.
Proof.
  intros Habs Hdef.
  apply (Forall_fmap Z.abs (λ var, is_Some (sol !! var))).
  rewrite Habs. by apply Forall_fmap.
Qed.

Lemma disagrees_defined clause :
  Forall (disagrees sol) clause →
  Forall (λ lit, is_Some (sol !! Z.abs lit)) clause.
Proof.
  intros Hun. eapply Forall_impl; [exact Hun|].
  intros lit Hd. unfold disagrees in Hd. by rewrite Hd.
Qed.

End repair_of_unsatisfied.

Section repair_clause.

Variable target : Z.
Variable st : repair_state.

Local Abbreviation sol := (solution st).

Lemma bump_if_horn_total clause :
  is_Some (is_clause_satisfied clause sol) →
  ∃ st', bump_if_horn st clause = Some st' ∧ solution st' = sol.
Proof.
  intros [sat Hsat]. unfold bump_if_horn. rewrite Hsat. simpl.
  eexists. split; [reflexivity|].
  by destruct (sat && _).
Qed.

Lemma drop_if_not_horn_total clause :
  is_Some (is_clause_satisfied clause sol) →
  ∃ st', drop_if_not_horn st clause = Some st' ∧ solution st' = sol.
Proof.
  intros [sat Hsat]. unfold drop_if_not_horn. rewrite Hsat. simpl.
  eexists. split; [reflexivity|].
  by destruct (sat && _).
Qed.

(** The decrement is skipped for a clause with at most one positive
    literal. *)
Lemma drop_if_not_horn_horn clause :
  is_Some (is_clause_satisfied clause sol) →
  (positive_count clause ≤ 1)%nat →
  drop_if_not_horn st clause = Some st.
Proof.
  intros [sat Hsat] Hh. unfold drop_if_not_horn. rewrite Hsat. simpl.
  rewrite bool_decide_eq_false_2, andb_false_r; [done|].
  rewrite positives_length. lia.
Qed.

(** A clause that is already satisfied is left as it is. *)
Lemma repair_clause_satisfied clause :
  is_clause_satisfied clause sol = Some true →
  repair_clause target st clause = Some (st, clause).
Proof. intros Hsat. unfold repair_clause. by rewrite Hsat. Qed.

Lemma indexed_positives_length clause :
  length (indexed_positives clause) = positive_count clause.
Proof.
  unfold indexed_positives, enumerate.
  by rewrite filter_positive_enumerate_length, positives_length.
Qed.

Lemma repair_result_defined clause clause' :
  Forall (disagrees sol) clause →
  Z.abs <$> clause' = Z.abs <$> clause →
  is_Some (is_clause_satisfied clause' sol).
Proof.
  intros Hun Habs. apply is_clause_satisfied_total.
  eapply lookups_defined_same_vars; [exact Habs|].
  by apply disagrees_defined.
Qed.

Lemma flip_positives_after_negatives clause :
  Forall (disagrees sol) clause →
  flip_false_positives sol (indexed_positives clause) (Z.abs <$> clause)
  = Some (repair_gt_result clause).
Proof.
  intros Hun. unfold repair_gt_result. case_bool_decide as Hneg.
  - rewrite abs_id by done.
    by apply flip_false_positives_clause.
  - apply flip_false_positives_skip. by apply abs_sat.
Qed.

Lemma flip_negatives_after_positives clause :
  Forall (disagrees sol) clause →
  flip_true_negatives_guarded sol (indexed_negatives clause)
    (negate_first_positive clause)
  = Some (repair_le_horn_result clause).
Proof.
  intros Hun. unfold repair_le_horn_result. case_bool_decide as Hpos.
  - rewrite negate_first_positive_id by done.
    by apply flip_true_negatives_guarded_clause.
  - apply flip_true_negatives_guarded_skip.
    by apply negate_first_positive_sat.
Qed.

Lemma repair_gt_result_abs clause :
  Z.abs <$> repair_gt_result clause = Z.abs <$> clause.
Proof.
  unfold repair_gt_result. case_bool_decide.
  - apply negate_first_positive_abs.
  - apply abs_abs.
Qed.

Lemma repair_le_horn_result_abs clause :
  Z.abs <$> repair_le_horn_result clause = Z.abs <$> clause.
Proof.
  unfold repair_le_horn_result, flip_first_negative. case_bool_decide.
  - apply flip_first_negatives_abs.
  - apply negate_first_positive_abs.
Qed.

(** The loop body on an unsatisfied clause produces
    [repair_unsatisfied_result] and then updates the tracker. *)
Lemma repair_clause_unsatisfied_eq clause :
  Forall (disagrees sol) clause →
  repair_clause target st clause
  = st' ← (if bool_decide (1 < positive_count clause)%nat
           then bump_if_horn st
                  (repair_unsatisfied_result target (current_horn_count st)
                                           clause)
           else drop_if_not_horn st
                  (repair_unsatisfied_result target (current_horn_count st)
                                           clause));
    Some (st', repair_unsatisfied_result target (current_horn_count st)
                                       clause).
Proof.
  intros Hun. apply is_clause_satisfied_false in Hun as Hsat.
  unfold repair_clause, repair_unsatisfied_result. rewrite Hsat. simpl.
  rewrite !indexed_positives_length.
  case_bool_decide as Hcount; case_bool_decide as Hmany.
  - unfold repair_le_many.
    rewrite flip_false_positives_clause by done. done.
  - unfold repair_le_horn. rewrite Hsat. simpl.
    rewrite flip_false_positives_clause by done. simpl.
    rewrite flip_negatives_after_positives by done. done.
  - unfold repair_gt_many. rewrite Hsat. simpl.
    rewrite flip_true_negatives_clause by done. simpl.
    rewrite flip_positives_after_negatives by done. done.
  - unfold repair_gt_horn. rewrite Hsat. simpl.
    rewrite flip_true_negatives_clause by done. simpl.
    rewrite flip_positives_after_negatives by done. done.
Qed.

Lemma repair_unsatisfied_result_abs clause :
  Z.abs <$> repair_unsatisfied_result target (current_horn_count st) clause
  = Z.abs <$> clause.
Proof.
  unfold repair_unsatisfied_result. repeat case_bool_decide.
  - apply negate_first_positive_abs.
  - apply repair_le_horn_result_abs.
  - apply repair_gt_result_abs.
Qed.

(** It does not fail and keeps the assignment. *)
Lemma repair_clause_unsatisfied clause :
  Forall (disagrees sol) clause →
  ∃ st',
    repair_clause target st clause
    = Some (st', repair_unsatisfied_result target (current_horn_count st)
                                         clause)
    ∧ solution st' = sol.
Proof.
  intros Hun. rewrite repair_clause_unsatisfied_eq by done.
  assert (is_Some (is_clause_satisfied
                     (repair_unsatisfied_result
                        target (current_horn_count st) clause) sol))
    as Hdef.
  { eapply repair_result_defined; [done|].
    apply repair_unsatisfied_result_abs. }
  case_bool_decide.
  - destruct (bump_if_horn_total _ Hdef) as (st' & -> & Hst').
    by exists st'.
  - destruct (drop_if_not_horn_total _ Hdef) as (st' & -> & Hst').
    by exists st'.
Qed.

Lemma nonzero_has_literal clause :
  clause ≠ [] → Forall (λ lit, lit ≠ 0) clause →
  positives clause ≠ [] ∨ negatives clause ≠ [].
Proof.
  destruct clause as [|lit rest]; [done|]. intros _ Hnz.
  apply Forall_cons in Hnz as [Hlit _].
  rewrite positives_cons, negatives_cons.
  destruct (decide (0 < lit)).
  - left. by rewrite bool_decide_eq_true_2.
  - right. by rewrite bool_decide_eq_true_2 by lia.
Qed.

(** A non-empty clause without a zero literal comes out satisfied. *)
Lemma repair_unsatisfied_result_sat clause :
  Forall (disagrees sol) clause →
  clause ≠ [] → Forall (λ lit, lit ≠ 0) clause →
  is_clause_satisfied
    (repair_unsatisfied_result target (current_horn_count st) clause) sol
  = Some true.
Proof.
  intros Hun Hne Hnz.
  destruct (nonzero_has_literal clause Hne Hnz) as [Hpos|Hneg].
  - unfold repair_unsatisfied_result, repair_le_horn_result, repair_gt_result.
    repeat case_bool_decide; try done;
      auto using negate_first_positive_sat, abs_sat.
  - unfold repair_unsatisfied_result, repair_le_horn_result, repair_gt_result,
      flip_first_negative.
    repeat case_bool_decide; try done;
      auto using negate_first_positive_sat, abs_sat,
        flip_first_negative_sat.
    apply negate_first_positive_sat; [done|].
    intros Hnil%positives_nil_count. lia.
Qed.

End repair_clause.

Section repair_loop.

Variable target : Z.

(** The loop body satisfies every non-empty clause whose literals are
    non-zero and name variables of the assignment. *)
Lemma repair_clause_satisfies st clause :
  clause ≠ [] →
  Forall (λ lit, lit ≠ 0) clause →
  Forall (λ lit, is_Some (solution st !! Z.abs lit)) clause →
  ∃ st' clause',
    repair_clause target st clause = Some (st', clause')
    ∧ solution st' = solution st
    ∧ is_clause_satisfied clause' (solution st) = Some true.
Proof.
  intros Hne Hnz Hdef.
  destruct (is_clause_satisfied_total _ _ Hdef) as [[|] Hsat].
  - exists st, clause. by rewrite repair_clause_satisfied.
  - apply is_clause_satisfied_false in Hsat.
    destruct (repair_clause_unsatisfied target st clause Hsat)
      as (st' & Hrun & Hst').
    eexists st', _. split; [exact Hrun|]. split; [done|].
    by apply repair_unsatisfied_result_sat.
Qed.

Lemma repair_loop_satisfies st clauses :
  Forall (λ clause,
            clause ≠ []
            ∧ Forall (λ lit, lit ≠ 0) clause
            ∧ Forall (λ lit, is_Some (solution st !! Z.abs lit)) clause)
         clauses →
  ∃ st' clauses',
    repair_loop target st clauses = Some (st', clauses')
    ∧ solution st' = solution st
    ∧ length clauses' = length clauses
    ∧ Forall (λ clause',
                is_clause_satisfied clause' (solution st) = Some true)
             clauses'.
Proof.
  intros Hwf. revert st Hwf.
  induction clauses as [|clause rest IH]; intros st Hwf.
  { exists st, []. by repeat split. }
  apply Forall_cons in Hwf as [(Hne & Hnz & Hdef) Hrest].
  destruct (repair_clause_satisfies st clause Hne Hnz Hdef)
    as (st1 & clause' & Hrun & Hst1 & Hsat).
  destruct (IH st1) as (st2 & rest' & Hloop & Hst2 & Hlen & Hall).
  { by rewrite Hst1. }
  exists st2, (clause' :: rest'). simpl. rewrite Hrun. simpl.
  rewrite Hloop. simpl. split; [done|]. split; [congruence|].
  split; [by rewrite Hlen|].
  constructor; [done|]. by rewrite <- Hst1.
Qed.

End repair_loop.

Lemma generate_solution_defined num_vars clauses choices var :
  1 ≤ var ≤ num_vars →
  is_Some (generate_solution num_vars clauses choices !! var).
Proof.
  intros Hvar. unfold generate_solution. apply fill_unset_is_Some.
  right. apply elem_of_seqZ. lia.
Qed.

(** A well-formed formula meets what [repair_loop_satisfies] asks of
    the clauses, for the assignment [generate_solution] builds. *)
Lemma well_formed_repairable clauses num_vars choices :
  well_formed num_vars clauses →
  Forall (λ clause,
            clause ≠ []
            ∧ Forall (λ lit, lit ≠ 0) clause
            ∧ Forall (λ lit,
                        is_Some (generate_solution num_vars clauses choices
                                 !! Z.abs lit))
                     clause)
         clauses.
Proof.
  intros Hwf. set (sol := generate_solution num_vars clauses choices).
  assert (∀ var, 1 ≤ var ≤ num_vars → is_Some (sol !! var)) as Hdef
    by (intros var; apply generate_solution_defined).
  clearbody sol.
  eapply Forall_impl; [exact Hwf|]. intros clause [Hne Hlits].
  split; [done|]. split.
  - eapply Forall_impl; [exact Hlits|]. simpl. lia.
  - eapply Forall_impl; [exact Hlits|]. simpl. intros lit Hlit.
    by apply Hdef.
Qed.

(** C1, as amended.  On every well-formed formula (no empty clause,
    every variable in [1..num_vars]) [make_satisfiable] returns, and
    every clause of its result is satisfied by the assignment it built:
    each unsatisfied clause is satisfied when it is visited, the
    clauses are lists of their own and the assignment is never written,
    so no later flip touches an earlier clause. *)
Theorem make_satisfiable_satisfies_every_clause
    (clauses : list (list Z)) (num_vars target : Z) (choices : nat → bool) :
  well_formed num_vars clauses →
  ∃ clauses',
    make_satisfiable clauses num_vars target choices = Some clauses'
    ∧ length clauses' = length clauses
    ∧ Forall (λ clause',
                is_clause_satisfied
                  clause' (generate_solution num_vars clauses choices)
                = Some true)
             clauses'.
Proof.
  intros Hwf. unfold make_satisfiable, make_satisfiable_run.
  destruct (repair_loop_satisfies target
              {| solution := generate_solution num_vars clauses choices;
                 current_horn_count := count_horn_clauses clauses |}
              clauses (well_formed_repairable _ _ _ Hwf))
    as (st' & clauses' & Hloop & _ & Hlen & Hall).
  exists clauses'. rewrite Hloop. done.
Qed.

Lemma make_satisfiable_satisfies_every_clause_witness :
  well_formed 2 [[1; 2]; [-1; -2]; [-1; 2]; [1; -2]]
  ∧ ∃ clauses',
      make_satisfiable [[1; 2]; [-1; -2]; [-1; 2]; [1; -2]] 2 0
                       (λ _, true)
      = Some clauses'
      ∧ Forall (λ clause',
                  is_clause_satisfied
                    clause'
                    (generate_solution
                       2 [[1; 2]; [-1; -2]; [-1; 2]; [1; -2]] (λ _, true))
                  = Some true)
               clauses'.
Proof.
  assert (Hwf : well_formed 2 [[1; 2]; [-1; -2]; [-1; 2]; [1; -2]]).
  { repeat constructor; simpl; try done; lia. }
  split; [exact Hwf|].
  destruct (make_satisfiable_satisfies_every_clause
              _ 2 0 (λ _, true) Hwf) as (clauses' & Hrun & _ & Hall).
  exists clauses'. split; [exact Hrun|exact Hall].
Defined.

(** C1, as stated, does not hold: no well-formed formula makes
    [make_satisfiable] return a clause that the assignment it built
    leaves unsatisfied. *)
Lemma make_satisfiable_repair_cannot_fail :
  ¬ ∃ (clauses : list (list Z)) (num_vars target : Z)
      (choices : nat → bool) (clauses' : list (list Z)) (clause' : list Z),
      well_formed num_vars clauses
      ∧ make_satisfiable clauses num_vars target choices = Some clauses'
      ∧ clause' ∈ clauses'
      ∧ is_clause_satisfied
          clause' (generate_solution num_vars clauses choices)
        ≠ Some true.
Proof.
  intros (clauses & num_vars & target & choices & clauses' & clause'
          & Hwf & Hrun & Hin & Hunsat).
  destruct (repair_loop_satisfies target
              {| solution := generate_solution num_vars clauses choices;
                 current_horn_count := count_horn_clauses clauses |}
              clauses (well_formed_repairable _ _ _ Hwf))
    as (st' & clauses'' & Hloop & _ & _ & Hall).
  unfold make_satisfiable, make_satisfiable_run in Hrun.
  rewrite Hloop in Hrun. injection Hrun as <-.
  rewrite Forall_forall in Hall. by apply Hunsat, Hall.
Qed.

Section first_flip.

Lemma flip_first_negatives_zero clause :
  flip_first_negatives 0 clause = clause.
Proof.
  induction clause as [|lit rest IH]; [done|]. simpl.
  case_bool_decide; [done|]. by rewrite IH.
Qed.

Lemma disagrees_nonzero sol clause :
  sol !! 0 ≠ Some true →
  Forall (disagrees sol) clause → Forall (λ lit, lit ≠ 0) clause.
Proof.
  intros Hzero Hun. eapply Forall_impl; [exact Hun|].
  intros lit Hd ->. by apply Hzero.
Qed.

Lemma positive_count_negate_first clause :
  positive_count (negate_first_positive clause)
  = Nat.pred (positive_count clause).
Proof.
  induction clause as [|lit rest IH]; [done|]. simpl.
  case_bool_decide as Hlit; simpl.
  - destruct (Z.ltb_spec 0 lit); [|lia].
    by destruct (Z.ltb_spec 0 (- lit)); [lia|].
  - destruct (Z.ltb_spec 0 lit); [lia|]. exact IH.
Qed.

Lemma positive_count_flip_first_negative clause :
  (positive_count (flip_first_negatives 1 clause)
   ≤ S (positive_count clause))%nat.
Proof.
  induction clause as [|lit rest IH]; simpl; [lia|].
  case_bool_decide as Hlit; simpl.
  - rewrite flip_first_negatives_zero.
    destruct (Z.ltb_spec 0 lit); [lia|].
    destruct (Z.ltb_spec 0 (Z.abs lit)); lia.
  - destruct (Z.ltb_spec 0 lit); lia.
Qed.

(** Negating the first positive literal rewrites one position. *)
Lemma negate_first_positive_insert clause :
  positives clause ≠ [] →
  ∃ i lit, clause !! i = Some lit ∧ 0 < lit
           ∧ negate_first_positive clause = <[i := - lit]> clause.
Proof.
  induction clause as [|x rest IH]; [done|].
  rewrite positives_cons. simpl. case_bool_decide as Hx.
  - intros _. by exists 0%nat, x.
  - intros (i & lit & Hi & Hlit & ->)%IH. by exists (S i), lit.
Qed.

(** The assignment built by [generate_solution] never maps [0] to
    [True]: the only write to the key [0] comes from a literal [0]. *)
Lemma scan_clause_zero num_vars clause sol :
  sol !! 0 ≠ Some true → scan_clause num_vars clause sol !! 0 ≠ Some true.
Proof.
  revert sol. induction clause as [|lit rest IH]; intros sol Hz; [done|].
  simpl. destruct (sol !! Z.abs lit) eqn:Hlit; [by apply IH|].
  assert (<[Z.abs lit := (0 <? lit)]> sol !! 0 ≠ Some true) as Hins.
  { rewrite lookup_insert. case_decide as Hd; [|done].
    assert (lit = 0) as -> by lia. done. }
  case_bool_decide; [done|]. by apply IH.
Qed.

Lemma scan_clauses_zero num_vars clauses sol :
  sol !! 0 ≠ Some true →
  scan_clauses num_vars clauses sol !! 0 ≠ Some true.
Proof.
  revert sol. induction clauses as [|clause rest IH]; intros sol Hz; [done|].
  simpl. pose proof (scan_clause_zero num_vars clause sol Hz) as Hc.
  case_bool_decide; [done|]. by apply IH.
Qed.

Lemma fill_unset_other choices vars sol drawn var :
  var ∉ vars → fill_unset choices vars sol drawn !! var = sol !! var.
Proof.
  revert sol drawn. induction vars as [|u rest IH]; intros sol drawn; [done|].
  intros [Hne Hrest]%not_elem_of_cons. simpl.
  destruct (sol !! u) eqn:Hu; rewrite IH by done; [done|].
  by rewrite lookup_insert_ne.
Qed.

Lemma generate_solution_zero num_vars clauses choices :
  generate_solution num_vars clauses choices !! 0 ≠ Some true.
Proof.
  unfold generate_solution. rewrite fill_unset_other.
  - apply scan_clauses_zero. by rewrite lookup_empty.
  - rewrite elem_of_seqZ. lia.
Qed.

End first_flip.

(** The branch of lines 74-86 under any assignment that does not map
    [0] to [True]: one flip satisfies the clause and the state is
    returned as it came. *)
Lemma repair_le_horn_single_flip
    (target : Z) (st : repair_state) (clause : list Z) :
  current_horn_count st ≤ target →
  (positive_count clause ≤ 1)%nat →
  clause ≠ [] →
  is_clause_satisfied clause (solution st) = Some false →
  solution st !! 0 ≠ Some true →
  repair_clause target st clause = Some (st, repair_le_horn_result clause)
  ∧ repair_le_horn st (indexed_positives clause) (indexed_negatives clause)
                   clause
    = Some (st, repair_le_horn_result clause)
  ∧ is_clause_satisfied (repair_le_horn_result clause) (solution st)
    = Some true
  ∧ (positive_count (repair_le_horn_result clause) ≤ 1)%nat
  ∧ ∃ i lit,
      clause !! i = Some lit
      ∧ repair_le_horn_result clause = <[i := - lit]> clause
      ∧ (0 < lit ∨ (positive_count clause = 0%nat ∧ i = 0%nat ∧ lit < 0)).
Proof.
  intros Hcount Hhorn Hne Hsat Hzero.
  apply is_clause_satisfied_false in Hsat as Hun.
  pose proof (disagrees_nonzero _ _ Hzero Hun) as Hnz.
  assert (repair_unsatisfied_result target (current_horn_count st) clause
          = repair_le_horn_result clause) as Hspec.
  { unfold repair_unsatisfied_result.
    rewrite bool_decide_eq_true_2 by done.
    by rewrite bool_decide_eq_false_2 by lia. }
  pose proof (repair_unsatisfied_result_sat target st clause Hun Hne Hnz)
    as Hres.
  rewrite Hspec in Hres.
  assert (positive_count (repair_le_horn_result clause) ≤ 1)%nat as Hres1.
  { unfold repair_le_horn_result, flip_first_negative. case_bool_decide as Hp.
    - apply positives_nil_count in Hp.
      pose proof (positive_count_flip_first_negative clause). lia.
    - rewrite positive_count_negate_first. lia. }
  assert (drop_if_not_horn st (repair_le_horn_result clause) = Some st)
    as Hdrop.
  { apply drop_if_not_horn_horn; [by rewrite Hres|done]. }
  split; [|split; [|split; [done|split; [done|]]]].
  - rewrite repair_clause_unsatisfied_eq, Hspec by done.
    rewrite bool_decide_eq_false_2 by lia. by rewrite Hdrop.
  - unfold repair_le_horn. rewrite Hsat. simpl.
    rewrite flip_false_positives_clause by done. simpl.
    rewrite flip_negatives_after_positives by done. simpl.
    by rewrite Hdrop.
  - unfold repair_le_horn_result, flip_first_negative. case_bool_decide as Hp.
    + destruct clause as [|lit rest]; [done|].
      apply Forall_cons in Hnz as [Hlit _].
      rewrite positives_cons in Hp.
      assert (lit < 0) as Hneg.
      { destruct (decide (0 < lit)); [|lia].
        by rewrite bool_decide_eq_true_2 in Hp. }
      exists 0%nat, lit. split; [done|]. split.
      * simpl. rewrite bool_decide_eq_true_2 by done.
        rewrite flip_first_negatives_zero. f_equal. lia.
      * right. split; [|done].
        apply positives_nil_count. by rewrite positives_cons.
    + destruct (negate_first_positive_insert clause Hp)
        as (i & lit & Hi & Hlit & Heq).
      exists i, lit. split; [done|]. split; [done|]. by left.
Qed.

(** C5.  In the branch taken when the tracker is at most the target and
    the clause has at most one positive literal, under the assignment
    [make_satisfiable] builds, an unsatisfied non-empty clause is
    satisfied by a single flip: its positive literal is made negative
    or, when it has none, its first literal, a negative one, is made
    positive.  The result has at most one positive literal and the
    tracker is not decremented: the state comes back unchanged. *)
Theorem repair_le_horn_first_flip
    (clauses : list (list Z)) (num_vars : Z) (choices : nat → bool)
    (target count : Z) (clause : list Z) :
  count ≤ target →
  (positive_count clause ≤ 1)%nat →
  clause ≠ [] →
  is_clause_satisfied clause (generate_solution num_vars clauses choices)
  = Some false →
  repair_clause target
    (RepairState (generate_solution num_vars clauses choices) count) clause
  = Some (RepairState (generate_solution num_vars clauses choices) count,
          repair_le_horn_result clause)
  ∧ is_clause_satisfied (repair_le_horn_result clause)
                        (generate_solution num_vars clauses choices)
    = Some true
  ∧ (positive_count (repair_le_horn_result clause) ≤ 1)%nat
  ∧ ∃ i lit,
      clause !! i = Some lit
      ∧ repair_le_horn_result clause = <[i := - lit]> clause
      ∧ (0 < lit ∨ (positive_count clause = 0%nat ∧ i = 0%nat ∧ lit < 0)).
Proof.
  intros Hcount Hhorn Hne Hsat.
  pose proof (generate_solution_zero num_vars clauses choices) as Hzero.
  destruct (repair_le_horn_single_flip
              target
              (RepairState (generate_solution num_vars clauses choices) count)
              clause Hcount Hhorn Hne Hsat Hzero)
    as (Hrun & _ & Hres & Hres1 & Hflip).
  split; [exact Hrun|]. split; [exact Hres|]. split; [exact Hres1|].
  exact Hflip.
Qed.

Lemma repair_le_horn_first_flip_witness :
  is_clause_satisfied
    [-1; 2] (generate_solution 2 [[1; -2]; [-1; 2]] (λ _, true))
  = Some false
  ∧ repair_clause
      2 (RepairState (generate_solution 2 [[1; -2]; [-1; 2]] (λ _, true)) 2)
      [-1; 2]
    = Some (RepairState (generate_solution 2 [[1; -2]; [-1; 2]] (λ _, true))
                        2,
            [-1; -2])
  ∧ is_clause_satisfied [-1; -2]
      (generate_solution 2 [[1; -2]; [-1; 2]] (λ _, true))
    = Some true.
Proof.
  assert (is_clause_satisfied
            [-1; 2] (generate_solution 2 [[1; -2]; [-1; 2]] (λ _, true))
          = Some false) as Hsat by reflexivity.
  split; [exact Hsat|].
  destruct (repair_le_horn_first_flip
              [[1; -2]; [-1; 2]] 2 (λ _, true) 2 2 [-1; 2])
    as (Hrun & Hres & _).
  - lia.
  - simpl. lia.
  - discriminate.
  - exact Hsat.
  - split; [exact Hrun|exact Hres].
Defined.

(** C4, as amended.  In the branches where the tracker exceeds the
    target, a clause that is already satisfied is returned untouched.  An
    unsatisfied clause that has a negative literal gets every negative
    literal made positive, with no satisfaction check between the flips,
    and none of its positive literals is flipped afterwards; an
    unsatisfied clause without a negative literal gets its first positive
    literal made negative and nothing more.  The assignment is kept. *)
Theorem repair_above_target
    (target : Z) (st : repair_state) (clause : list Z) :
  target < current_horn_count st →
  (is_clause_satisfied clause (solution st) = Some true →
   repair_clause target st clause = Some (st, clause))
  ∧ (is_clause_satisfied clause (solution st) = Some false →
     ∃ st',
       repair_clause target st clause = Some (st', repair_gt_result clause)
       ∧ solution st' = solution st
       ∧ (negatives clause ≠ [] →
          repair_gt_result clause = Z.abs <$> clause
          ∧ is_clause_satisfied (Z.abs <$> clause) (solution st)
            = Some true)
       ∧ (negatives clause = [] →
          repair_gt_result clause = negate_first_positive clause)).
Proof.
  intros Hcount. split; [apply repair_clause_satisfied|].
  intros Hun%is_clause_satisfied_false.
  destruct (repair_clause_unsatisfied target st clause Hun)
    as (st' & Hrun & Hst').
  assert (repair_unsatisfied_result target (current_horn_count st) clause
          = repair_gt_result clause) as Hspec.
  { unfold repair_unsatisfied_result. by rewrite bool_decide_eq_false_2 by lia. }
  rewrite Hspec in Hrun. exists st'.
  split; [done|]. split; [done|]. unfold repair_gt_result. split.
  - intros Hneg. rewrite bool_decide_eq_false_2 by done.
    split; [done|]. by apply abs_sat.
  - intros Hneg. by rewrite bool_decide_eq_true_2.
Qed.

Lemma repair_above_target_witness :
  ∃ st',
    repair_clause
      0 (RepairState (<[1 := true]> (<[2 := true]> (<[3 := false]> ∅))) 1)
      [-1; -2; 3]
    = Some (st', [1; 2; 3]).
Proof.
  destruct (repair_above_target
              0 (RepairState
                   (<[1 := true]> (<[2 := true]> (<[3 := false]> ∅))) 1)
              [-1; -2; 3])
    as [_ Hunsat].
  - simpl. lia.
  - destruct Hunsat as (st' & Hrun & _); [reflexivity|].
    exists st'. exact Hrun.
Defined.

(** C4, as stated, does not hold.  With variables [1] and [2] assigned
    [True] and the tracker above the target, the unsatisfied clause
    [[-1; -2]] comes out as [[1; 2]]: the second literal is flipped
    although the clause is satisfied since the first flip, where the
    two passes stopping at satisfaction would give [[1; -2]]. *)
Lemma repair_above_target_flips_satisfied_clause :
  is_clause_satisfied [-1; -2] (<[1 := true]> (<[2 := true]> ∅))
  = Some false
  ∧ repair_clause 0 (RepairState (<[1 := true]> (<[2 := true]> ∅)) 1)
                  [-1; -2]
    = Some (RepairState (<[1 := true]> (<[2 := true]> ∅)) 0, [1; 2])
  ∧ is_clause_satisfied [1; -2] (<[1 := true]> (<[2 := true]> ∅))
    = Some true
  ∧ repair_gt_until_satisfied (<[1 := true]> (<[2 := true]> ∅)) [-1; -2]
    = Some [1; -2].
Proof. repeat split; reflexivity. Qed.

(** ** Frame of the repairer *)

Section frame.

Variable sol : gmap Z bool.

Lemma polarity_change_refl clause : polarity_change sol clause clause.
Proof. split; [done|]. intros j lit' Hj. by left. Qed.

Lemma polarity_change_trans c1 c2 c3 :
  polarity_change sol c1 c2 → polarity_change sol c2 c3 →
  polarity_change sol c1 c3.
Proof.
  intros [Habs12 H12] [Habs23 H23]. split; [congruence|].
  intros j lit' Hj. destruct (H23 j lit' Hj) as [Hj2|Hagree].
  - by apply H12.
  - by right.
Qed.

(** One write of a flip loop. *)
Lemma polarity_change_insert clause index lit v :
  (Z.abs <$> clause) !! index = Some (Z.abs lit) →
  Z.abs v = Z.abs lit →
  v = 0 ∨ sol !! Z.abs v = Some (0 <? v) →
  polarity_change sol clause (<[index := v]> clause).
Proof.
  intros Hindex Habs Hagree. split.
  - rewrite list_fmap_insert, Habs. by apply list_insert_id.
  - intros j lit' Hj. destruct (decide (index = j)) as [->|Hne].
    + rewrite list_lookup_fmap in Hindex.
      destruct (clause !! j) as [old|] eqn:Hold; [|done].
      rewrite list_lookup_insert_eq in Hj
        by (by eapply lookup_lt_Some).
      injection Hj as <-. injection Hindex as Hold_abs.
      destruct Hagree as [->|Hagree]; [|by right].
      left. f_equal. lia.
    + left. by rewrite list_lookup_insert_ne in Hj.
Qed.

Lemma indexes_agree_change lits clause clause' :
  polarity_change sol clause clause' →
  indexes_agree lits clause → indexes_agree lits clause'.
Proof. intros [Habs _]. unfold indexes_agree. by rewrite Habs. Qed.

Lemma enumerate_from_lookup start (clause : list Z) :
  Forall (λ p : nat * Z,
            (start ≤ p.1)%nat ∧ clause !! (p.1 - start)%nat = Some p.2)
         (enumerate_from start clause).
Proof.
  revert start. induction clause as [|lit rest IH]; intros start; simpl.
  { constructor. }
  constructor.
  - simpl. by rewrite Nat.sub_diag.
  - eapply Forall_impl; [apply IH|]. intros [i x]. simpl.
    intros [Hle Hx]. split; [lia|].
    by replace (i - start)%nat with (S (i - S start)) by lia.
Qed.

Lemma filter_enumerate_agree (P : nat * Z → Prop)
    `{!∀ p, Decision (P p)} clause :
  indexes_agree (filter P (enumerate clause)) clause.
Proof.
  unfold indexes_agree. apply Forall_forall. intros [i x] Hin.
  apply list_elem_of_filter in Hin as [_ Hin].
  pose proof (enumerate_from_lookup 0 clause) as Hall.
  rewrite Forall_forall in Hall. destruct (Hall _ Hin) as [_ Hx].
  simpl in *. rewrite Nat.sub_0_r in Hx.
  by rewrite list_lookup_fmap, Hx.
Qed.

(** The writes of the three loops. *)
Lemma negative_write lit :
  sol !! Z.abs lit = Some false →
  - Z.abs lit = 0 ∨ sol !! Z.abs (- Z.abs lit) = Some (0 <? - Z.abs lit).
Proof.
  intros Hlit. right. rewrite Z.abs_opp.
  replace (Z.abs (Z.abs lit)) with (Z.abs lit) by lia. rewrite Hlit.
  by destruct (Z.ltb_spec 0 (- Z.abs lit)); [lia|].
Qed.

Lemma positive_write lit :
  sol !! Z.abs lit = Some true →
  Z.abs lit = 0 ∨ sol !! Z.abs (Z.abs lit) = Some (0 <? Z.abs lit).
Proof.
  intros Hlit. destruct (decide (lit = 0)) as [->|Hnz]; [by left|].
  right. replace (Z.abs (Z.abs lit)) with (Z.abs lit) by lia. rewrite Hlit.
  by destruct (Z.ltb_spec 0 (Z.abs lit)); [|lia].
Qed.

Ltac frame_step IH Hhead Htail Hrun :=
  lazymatch type of Hrun with
  | _ _ _ (<[?index := ?v]> ?clause) = Some _ =>
      lazymatch type of Hhead with
      | _ = Some (Z.abs ?lit) =>
          assert (Z.abs v = Z.abs lit) as Habs by lia;
          assert (polarity_change sol clause (<[index := v]> clause))
            as Hwrite
            by (apply (polarity_change_insert clause index lit v
                         Hhead Habs);
                auto using negative_write, positive_write);
          eapply polarity_change_trans; [exact Hwrite|];
          apply IH; [|exact Hrun];
          eapply indexes_agree_change; [exact Hwrite|exact Htail]
      end
  | _ => apply IH; [exact Htail|exact Hrun]
  end.

Lemma flip_false_positives_frame lits clause clause' :
  indexes_agree lits clause →
  flip_false_positives sol lits clause = Some clause' →
  polarity_change sol clause clause'.
Proof.
  revert clause. induction lits as [|[index lit] rest IH]; intros clause.
  { intros _ [= <-]. apply polarity_change_refl. }
  intros [Hhead Htail]%Forall_cons. simpl in Hhead |- *.
  destruct (is_clause_satisfied clause sol) as [[|]|]; simpl; [| |done].
  - by apply IH.
  - destruct (sol !! Z.abs lit) as [[|]|] eqn:Hlit; simpl; [| |done];
      intros Hrun; frame_step IH Hhead Htail Hrun.
Qed.

Lemma flip_true_negatives_guarded_frame lits clause clause' :
  indexes_agree lits clause →
  flip_true_negatives_guarded sol lits clause = Some clause' →
  polarity_change sol clause clause'.
Proof.
  revert clause. induction lits as [|[index lit] rest IH]; intros clause.
  { intros _ [= <-]. apply polarity_change_refl. }
  intros [Hhead Htail]%Forall_cons. simpl in Hhead |- *.
  destruct (is_clause_satisfied clause sol) as [[|]|]; simpl; [| |done].
  - by apply IH.
  - destruct (sol !! Z.abs lit) as [[|]|] eqn:Hlit; simpl; [| |done];
      intros Hrun; frame_step IH Hhead Htail Hrun.
Qed.

Lemma flip_true_negatives_frame lits clause clause' :
  indexes_agree lits clause →
  flip_true_negatives sol lits clause = Some clause' →
  polarity_change sol clause clause'.
Proof.
  revert clause. induction lits as [|[index lit] rest IH]; intros clause.
  { intros _ [= <-]. apply polarity_change_refl. }
  intros [Hhead Htail]%Forall_cons. simpl in Hhead |- *.
  destruct (sol !! Z.abs lit) as [[|]|] eqn:Hlit; simpl; [| |done];
    intros Hrun; frame_step IH Hhead Htail Hrun.
Qed.

End frame.

Section frame_of_loop.

Variable target : Z.

Lemma bump_if_horn_solution st clause st' :
  bump_if_horn st clause = Some st' → solution st' = solution st.
Proof.
  unfold bump_if_horn.
  destruct (is_clause_satisfied clause (solution st)) as [sat|];
    simpl; [|done].
  intros [= <-]. by destruct (sat && _).
Qed.

Lemma drop_if_not_horn_solution st clause st' :
  drop_if_not_horn st clause = Some st' → solution st' = solution st.
Proof.
  unfold drop_if_not_horn.
  destruct (is_clause_satisfied clause (solution st)) as [sat|];
    simpl; [|done].
  intros [= <-]. by destruct (sat && _).
Qed.

Lemma indexed_positives_agree clause :
  indexes_agree (indexed_positives clause) clause.
Proof. apply filter_enumerate_agree. Qed.

Lemma indexed_negatives_agree clause :
  indexes_agree (indexed_negatives clause) clause.
Proof. apply filter_enumerate_agree. Qed.

(** Whatever the assignment, the loop body keeps it and only changes
    polarities, towards the assignment. *)
Lemma repair_clause_frame st clause st' clause' :
  repair_clause target st clause = Some (st', clause') →
  solution st' = solution st
  ∧ polarity_change (solution st) clause clause'.
Proof.
  unfold repair_clause.
  destruct (is_clause_satisfied clause (solution st)) as [[|]|] eqn:Hsat;
    simpl; [| |done].
  { intros [= <- <-]. split; [done|apply polarity_change_refl]. }
  pose proof (indexed_positives_agree clause) as Hpos.
  pose proof (indexed_negatives_agree clause) as Hneg.
  repeat case_bool_decide.
  - unfold repair_le_many.
    destruct (flip_false_positives _ _ clause) as [c1|] eqn:H1;
      simpl; [|done].
    destruct (bump_if_horn st c1) as [st1|] eqn:Hst; simpl; [|done].
    intros [= <- <-]. split; [by eapply bump_if_horn_solution|].
    eapply flip_false_positives_frame; [exact Hpos|exact H1].
  - unfold repair_le_horn. rewrite Hsat. simpl.
    destruct (flip_false_positives _ _ clause) as [c1|] eqn:H1;
      simpl; [|done].
    apply flip_false_positives_frame in H1 as Hc1; [|done].
    destruct (flip_true_negatives_guarded _ _ c1) as [c2|] eqn:H2;
      simpl; [|done].
    apply flip_true_negatives_guarded_frame in H2 as Hc2;
      [|by eapply indexes_agree_change].
    destruct (drop_if_not_horn st c2) as [st1|] eqn:Hst; simpl; [|done].
    intros [= <- <-]. split; [by eapply drop_if_not_horn_solution|].
    by eapply polarity_change_trans.
  - unfold repair_gt_many. rewrite Hsat. simpl.
    destruct (flip_true_negatives _ _ clause) as [c1|] eqn:H1;
      simpl; [|done].
    apply flip_true_negatives_frame in H1 as Hc1; [|done].
    destruct (flip_false_positives _ _ c1) as [c2|] eqn:H2;
      simpl; [|done].
    apply flip_false_positives_frame in H2 as Hc2;
      [|by eapply indexes_agree_change].
    destruct (bump_if_horn st c2) as [st1|] eqn:Hst; simpl; [|done].
    intros [= <- <-]. split; [by eapply bump_if_horn_solution|].
    by eapply polarity_change_trans.
  - unfold repair_gt_horn. rewrite Hsat. simpl.
    destruct (flip_true_negatives _ _ clause) as [c1|] eqn:H1;
      simpl; [|done].
    apply flip_true_negatives_frame in H1 as Hc1; [|done].
    destruct (flip_false_positives _ _ c1) as [c2|] eqn:H2;
      simpl; [|done].
    apply flip_false_positives_frame in H2 as Hc2;
      [|by eapply indexes_agree_change].
    destruct (drop_if_not_horn st c2) as [st1|] eqn:Hst; simpl; [|done].
    intros [= <- <-]. split; [by eapply drop_if_not_horn_solution|].
    by eapply polarity_change_trans.
Qed.

Lemma repair_loop_frame st clauses st' clauses' :
  repair_loop target st clauses = Some (st', clauses') →
  solution st' = solution st
  ∧ Forall2 (polarity_change (solution st)) clauses clauses'.
Proof.
  revert st clauses'.
  induction clauses as [|clause rest IH]; intros st clauses'; simpl.
  { intros [= <- <-]. by split. }
  destruct (repair_clause target st clause) as [[st1 clause']|] eqn:Hc;
    simpl; [|done].
  destruct (repair_loop target st1 rest) as [[st2 rest']|] eqn:Hr;
    simpl; [|done].
  intros [= <- <-].
  apply repair_clause_frame in Hc as [Hst1 Hchange].
  apply IH in Hr as [Hst2 Hrest]. rewrite Hst1 in Hst2, Hrest.
  split; [done|]. by constructor.
Qed.

Lemma polarity_change_spelled sol clauses clauses' :
  Forall2 (polarity_change sol) clauses clauses' →
  only_polarities_changed sol clauses clauses'.
Proof.
  intros Hall. split; [symmetry; by eapply Forall2_length|].
  intros i clause clause' Hi Hi'.
  destruct (Forall2_lookup_lr _ _ _ _ _ _ Hall Hi Hi') as [Habs Hflip].
  split.
  - by rewrite <- (length_fmap Z.abs clause'), Habs, length_fmap.
  - intros j lit lit' Hj Hj'. split.
    + assert ((Z.abs <$> clause') !! j = (Z.abs <$> clause) !! j) as Heq
        by (by rewrite Habs).
      rewrite !list_lookup_fmap, Hj, Hj' in Heq. by injection Heq.
    + intros Hne. destruct (Hflip j lit' Hj') as [Hsame|Hagree]; [|done].
      congruence.
Qed.

End frame_of_loop.

(** C6.  The repairer changes polarities only.  From any state, that is
    for every formula and assignment, the clause loop of
    [make_satisfiable] ends with the assignment it started from, and
    the clauses it returns have the same number of literals and the same
    variable at every position; each literal that was flipped agrees
    with the assignment's value for its variable.  The same holds of
    [make_satisfiable] itself, for the assignment it builds. *)
Theorem make_satisfiable_frame (target : Z) :
  (∀ st clauses st' clauses',
     repair_loop target st clauses = Some (st', clauses') →
     solution st' = solution st
     ∧ only_polarities_changed (solution st) clauses clauses')
  ∧ (∀ clauses num_vars choices st' clauses',
       make_satisfiable_run clauses num_vars target choices
       = Some (st', clauses') →
       make_satisfiable clauses num_vars target choices = Some clauses'
       ∧ solution st' = generate_solution num_vars clauses choices
       ∧ only_polarities_changed
           (generate_solution num_vars clauses choices) clauses clauses').
Proof.
  split.
  - intros st clauses st' clauses' [Hst Hall]%repair_loop_frame.
    split; [done|]. by apply polarity_change_spelled.
  - intros clauses num_vars choices st' clauses' Hrun.
    split; [unfold make_satisfiable; by rewrite Hrun|].
    unfold make_satisfiable_run in Hrun.
    apply repair_loop_frame in Hrun as [Hst Hall]. simpl in *.
    split; [done|]. by apply polarity_change_spelled.
Qed.

Lemma make_satisfiable_frame_witness :
  make_satisfiable [[1; 2]; [-1; -2]; [-1; 2]; [1; -2]] 2 0 (λ _, true)
  = Some [[1; 2]; [1; 2]; [-1; 2]; [1; -2]]
  ∧ only_polarities_changed
      (generate_solution 2 [[1; 2]; [-1; -2]; [-1; 2]; [1; -2]] (λ _, true))
      [[1; 2]; [-1; -2]; [-1; 2]; [1; -2]]
      [[1; 2]; [1; 2]; [-1; 2]; [1; -2]].
Proof.
  destruct (make_satisfiable_frame 0) as [_ Hframe].
  destruct (Hframe [[1; 2]; [-1; -2]; [-1; 2]; [1; -2]] 2 (λ _, true)
              (RepairState
                 (generate_solution
                    2 [[1; 2]; [-1; -2]; [-1; 2]; [1; -2]] (λ _, true))
                 2)
              [[1; 2]; [1; 2]; [-1; 2]; [1; -2]])
    as (Hrun & _ & Hchange).
  - reflexivity.
  - split; [exact Hrun|exact Hchange].
Defined.

(** ** Worked examples *)

(** The seed [p cnf 3 2] with clauses [[1, 2]] and [[-1, -2, 3]] and
    [count = 2]: the targets are [0] and [1]; variant [0] loses its only
    Horn clause, variant [1] is already on target, and the repairer finds
    both satisfied. *)
Example generate_instance_seed :
  variant_targets 2 2 = Some [0; 1]
  ∧ generate_instance [[1; 2]; [-1; -2; 3]] 3 1 0 true (λ _, true)
    = Some [[1; 2]; [1; 2; 3]]
  ∧ generate_instance [[1; 2]; [-1; -2; 3]] 3 1 1 true (λ _, true)
    = Some [[1; 2]; [-1; -2; 3]]
  ∧ generate_instance [[1; 2]; [-1; -2; 3]] 3 1 1 false (λ _, true)
    = Some [[1; 2]; [-1; -2; 3]].
Proof. repeat split; reflexivity. Qed.

(** An empty clause is outside the well-formed formulas; the repairer
    has nothing to flip in it and returns it unsatisfied. *)
Example make_satisfiable_empty_clause :
  make_satisfiable [[1]; []] 1 0 (λ _, true) = Some [[1]; []]
  ∧ is_clause_satisfied [] (generate_solution 1 [[1]; []] (λ _, true))
    = Some false.
Proof. split; reflexivity. Qed.

(** A literal naming a variable that the assignment lacks makes the
    repairer raise [KeyError]: the scan stops once [num_vars] variables
    are set and never sees variable [2]. *)
Example make_satisfiable_key_error :
  make_satisfiable [[1]; [2]] 1 0 (λ _, true) = None.
Proof. reflexivity. Qed.

(** * Further properties *)

(** ** The adjuster on every input *)

Section adjuster_frame.

Lemma only_negated_refl clause : only_negated clause clause.
Proof. apply Forall_Forall2_diag, Forall_forall. intros lit _. by left. Qed.

Lemma only_asserted_refl clause : only_asserted clause clause.
Proof. apply Forall_Forall2_diag, Forall_forall. intros lit _. by left. Qed.

Lemma negate_positives_but_last_direction clause :
  only_negated clause (negate_positives_but_last clause).
Proof.
  induction clause as [|lit rest IH]; [constructor|].
  cbn [negate_positives_but_last]. constructor; [|exact IH].
  case_bool_decide as Hd; [right; tauto|by left].
Qed.

Lemma flip_first_negatives_direction n clause :
  only_asserted clause (flip_first_negatives n clause).
Proof.
  revert n. induction clause as [|lit rest IH]; intros n; [constructor|].
  cbn [flip_first_negatives]. case_bool_decide as Hd.
  - destruct n as [|n]; [apply only_asserted_refl|].
    constructor; [|apply IH]. right. split; [done|lia].
  - constructor; [by left|apply IH].
Qed.

Lemma increase_spec_direction needed clauses :
  Forall2 only_negated clauses (increase_spec needed clauses).
Proof.
  revert needed. induction clauses as [|clause rest IH]; intros needed.
  { destruct needed; constructor. }
  destruct needed as [|n].
  { apply Forall_Forall2_diag, Forall_forall. intros c _.
    apply only_negated_refl. }
  cbn [increase_spec]. destruct (is_horn clause).
  - constructor; [apply only_negated_refl|apply IH].
  - constructor; [apply negate_positives_but_last_direction|apply IH].
Qed.

Lemma decrease_spec_direction excess clauses :
  Forall2 only_asserted clauses (decrease_spec excess clauses).
Proof.
  revert excess. induction clauses as [|clause rest IH]; intros excess.
  { destruct excess; constructor. }
  destruct excess as [|n].
  { apply Forall_Forall2_diag, Forall_forall. intros c _.
    apply only_asserted_refl. }
  cbn [decrease_spec]. destruct (is_horn clause).
  - constructor; [apply flip_first_negatives_direction|apply IH].
  - constructor; [apply only_asserted_refl|apply IH].
Qed.

Lemma only_negated_abs clause clause' :
  only_negated clause clause' → Z.abs <$> clause' = Z.abs <$> clause.
Proof.
  induction 1 as [|lit lit' rest rest' Hlit _ IH]; [done|].
  rewrite !fmap_cons, IH. f_equal. lia.
Qed.

Lemma only_asserted_abs clause clause' :
  only_asserted clause clause' → Z.abs <$> clause' = Z.abs <$> clause.
Proof.
  induction 1 as [|lit lit' rest rest' Hlit _ IH]; [done|].
  rewrite !fmap_cons, IH. f_equal. lia.
Qed.

(** The three outcomes of the adjuster in closed form. *)
Lemma adjust_horn_count_cases target clauses :
  (count_horn_clauses clauses < target
   ∧ adjust_horn_count target clauses
     = Some (increase_spec
               (Z.to_nat (target - count_horn_clauses clauses)) clauses,
             Z.min target (count_horn_clauses clauses
                           + Z.of_nat (non_horn_count clauses))))
  ∨ (target < count_horn_clauses clauses
     ∧ adjust_horn_count target clauses
       = Some (decrease_spec
                 (Z.to_nat (count_horn_clauses clauses - target)) clauses,
               Z.max target (count_horn_clauses clauses
                             - Z.of_nat (eligible_count clauses))))
  ∨ (target = count_horn_clauses clauses
     ∧ adjust_horn_count target clauses
       = Some (clauses, count_horn_clauses clauses)).
Proof.
  unfold adjust_horn_count.
  destruct (Z.lt_trichotomy (count_horn_clauses clauses) target)
    as [Hlt|[Heq|Hgt]].
  - left. split; [done|]. rewrite bool_decide_eq_true_2 by done.
    by apply increase_loop_spec.
  - right. right. split; [done|].
    rewrite !bool_decide_eq_false_2 by lia. done.
  - right. left. split; [done|]. rewrite bool_decide_eq_false_2 by lia.
    rewrite bool_decide_eq_true_2 by done. by apply decrease_loop_spec.
Qed.

Lemma horn_partition clauses :
  count_horn_clauses clauses + Z.of_nat (non_horn_count clauses)
  = Z.of_nat (length clauses).
Proof.
  induction clauses as [|clause rest IH]; [done|].
  rewrite count_horn_clauses_cons, non_horn_count_cons. simpl.
  destruct (is_horn clause); lia.
Qed.

Lemma count_horn_clauses_all clauses :
  count_horn_clauses clauses = Z.of_nat (length clauses)
  ↔ Forall (λ clause, is_horn clause = true) clauses.
Proof.
  induction clauses as [|clause rest IH]; [by split; [constructor|]|].
  rewrite count_horn_clauses_cons, Forall_cons, <- IH. simpl.
  pose proof (horn_partition rest).
  destruct (is_horn clause); split; try lia; intros [? ?]; try done; lia.
Qed.

End adjuster_frame.

(** X1.  The adjuster returns on every clause list and every target:
    [list.index] never misses.  The running counter it ends with is
    the Horn count of the clause list it leaves. *)
Theorem adjust_horn_count_counter_exact
    (target : Z) (clauses : list (list Z)) :
  ∃ clauses' horn_count,
    adjust_horn_count target clauses = Some (clauses', horn_count)
    ∧ horn_count = count_horn_clauses clauses'
    ∧ length clauses' = length clauses.
Proof.
  destruct (adjust_horn_count_cases target clauses)
    as [[Hlt ->]|[[Hgt ->]|[Heq ->]]]; eexists _, _;
    (split; [reflexivity|]).
  - rewrite count_increase_spec, increase_spec_length. split; [lia|done].
  - rewrite count_decrease_spec, decrease_spec_length. split; [lia|done].
  - done.
Qed.

(** X2.  The adjuster changes polarities only, and in one direction:
    every clause keeps its variables in place; when the Horn count is
    at most the target a literal can only go from positive to negative,
    when it is at least the target only from negative to positive. *)
Theorem adjust_horn_count_direction
    (target : Z) (clauses clauses' : list (list Z)) (horn_count : Z) :
  adjust_horn_count target clauses = Some (clauses', horn_count) →
  same_variables clauses clauses'
  ∧ (count_horn_clauses clauses ≤ target →
     Forall2 only_negated clauses clauses')
  ∧ (target ≤ count_horn_clauses clauses →
     Forall2 only_asserted clauses clauses').
Proof.
  intros Hrun.
  assert (Hrefl_n : Forall2 only_negated clauses clauses).
  { apply Forall_Forall2_diag, Forall_forall. intros c _.
    apply only_negated_refl. }
  assert (Hrefl_a : Forall2 only_asserted clauses clauses).
  { apply Forall_Forall2_diag, Forall_forall. intros c _.
    apply only_asserted_refl. }
  destruct (adjust_horn_count_cases target clauses)
    as [[Hlt Heq]|[[Hgt Heq]|[Hsame Heq]]];
    rewrite Heq in Hrun; injection Hrun as <- <-.
  - pose proof (increase_spec_direction
                  (Z.to_nat (target - count_horn_clauses clauses)) clauses)
      as Hdir.
    split; [|split; [done|lia]].
    eapply Forall2_impl; [exact Hdir|]. apply only_negated_abs.
  - pose proof (decrease_spec_direction
                  (Z.to_nat (count_horn_clauses clauses - target)) clauses)
      as Hdir.
    split; [|split; [lia|done]].
    eapply Forall2_impl; [exact Hdir|]. apply only_asserted_abs.
  - split; [|by split].
    eapply Forall2_impl; [exact Hrefl_n|]. apply only_negated_abs.
Qed.

Lemma adjust_horn_count_direction_witness :
  same_variables [[1; 2; 1]; [-1; -2; 3]; [3; 2; 1]]
                 [[-1; -2; 1]; [-1; -2; 3]; [3; 2; 1]]
  ∧ Forall2 only_negated [[1; 2; 1]; [-1; -2; 3]; [3; 2; 1]]
                         [[-1; -2; 1]; [-1; -2; 3]; [3; 2; 1]].
Proof.
  destruct (adjust_horn_count_direction
              2 [[1; 2; 1]; [-1; -2; 3]; [3; 2; 1]]
              [[-1; -2; 1]; [-1; -2; 3]; [3; 2; 1]] 2)
    as (Hvars & Hneg & _); [reflexivity|].
  split; [exact Hvars|]. apply Hneg. vm_compute. discriminate.
Defined.

(** X3.  The adjuster never overshoots: the Horn count it leaves lies
    between the Horn count it found and the target, and a formula
    already on target is returned as it is. *)
Theorem adjust_horn_count_between
    (target : Z) (clauses : list (list Z)) :
  ∃ clauses' horn_count,
    adjust_horn_count target clauses = Some (clauses', horn_count)
    ∧ Z.min (count_horn_clauses clauses) target
      ≤ count_horn_clauses clauses'
      ≤ Z.max (count_horn_clauses clauses) target
    ∧ (count_horn_clauses clauses = target → clauses' = clauses).
Proof.
  destruct (adjust_horn_count_cases target clauses)
    as [[Hlt ->]|[[Hgt ->]|[Heq ->]]]; eexists _, _;
    (split; [reflexivity|]).
  - rewrite count_increase_spec. split; lia.
  - rewrite count_decrease_spec. split; lia.
  - split; [lia|done].
Qed.

Lemma adjust_horn_count_between_witness :
  ∃ clauses' horn_count,
    adjust_horn_count 1 [[1; 2]; [-1]] = Some (clauses', horn_count)
    ∧ clauses' = [[1; 2]; [-1]].
Proof.
  destruct (adjust_horn_count_between 1 [[1; 2]; [-1]])
    as (clauses' & horn_count & Hrun & _ & Hsame).
  exists clauses', horn_count. split; [exact Hrun|].
  apply Hsame. reflexivity.
Defined.

(** X4.  Raising the Horn count always succeeds as far as the formula
    allows: from a Horn count below the target the adjuster leaves
    [min target (number of clauses)] Horn clauses, the target itself
    whenever the target does not exceed the number of clauses and
    otherwise a formula of Horn clauses only. *)
Theorem adjust_increase_reaches_target
    (target : Z) (clauses : list (list Z)) :
  count_horn_clauses clauses < target →
  ∃ clauses' horn_count,
    adjust_horn_count target clauses = Some (clauses', horn_count)
    ∧ count_horn_clauses clauses'
      = Z.min target (Z.of_nat (length clauses))
    ∧ (Z.of_nat (length clauses) ≤ target →
       Forall (λ clause, is_horn clause = true) clauses').
Proof.
  intros Hlt.
  destruct (adjust_horn_count_cases target clauses)
    as [[_ ->]|[[Hgt _]|[Heq _]]]; [|lia..].
  eexists _, _. split; [reflexivity|].
  pose proof (horn_partition clauses) as Hpart.
  assert (count_horn_clauses
            (increase_spec (Z.to_nat (target - count_horn_clauses clauses))
                           clauses)
          = Z.min target (Z.of_nat (length clauses))) as Hcount.
  { rewrite count_increase_spec. lia. }
  split; [done|]. intros Hmany.
  apply count_horn_clauses_all. rewrite Hcount, increase_spec_length. lia.
Qed.

Lemma adjust_increase_reaches_target_witness :
  ∃ clauses' horn_count,
    adjust_horn_count 5 [[1; 2; 1]; [-1; -2; 3]; [3; 2; 1]]
    = Some (clauses', horn_count)
    ∧ count_horn_clauses clauses' = 3.
Proof.
  destruct (adjust_increase_reaches_target
              5 [[1; 2; 1]; [-1; -2; 3]; [3; 2; 1]])
    as (clauses' & horn_count & Hrun & Hcount & _); [reflexivity|].
  exists clauses', horn_count. split; [exact Hrun|exact Hcount].
Defined.

(** ** The tracker of the repairer *)

Section tracker.

Variable target : Z.
Variable st : repair_state.

Local Abbreviation sol := (solution st).

(** An unsatisfied clause with a positive or a negative literal comes
    out satisfied, in every branch. *)
Lemma repair_unsatisfied_result_sat_lit clause :
  Forall (disagrees sol) clause →
  positives clause ≠ [] ∨ negatives clause ≠ [] →
  is_clause_satisfied
    (repair_unsatisfied_result target (current_horn_count st) clause) sol
  = Some true.
Proof.
  intros Hun [Hpos|Hneg].
  - unfold repair_unsatisfied_result, repair_le_horn_result,
      repair_gt_result.
    repeat case_bool_decide; try done;
      auto using negate_first_positive_sat, abs_sat.
  - unfold repair_unsatisfied_result, repair_le_horn_result,
      repair_gt_result, flip_first_negative.
    repeat case_bool_decide; try done;
      auto using negate_first_positive_sat, abs_sat,
        flip_first_negative_sat.
    apply negate_first_positive_sat; [done|].
    intros Hnil%positives_nil_count. lia.
Qed.

(** A clause of zero literals only, or an empty one, comes out as it
    went in. *)
Lemma repair_unsatisfied_result_id clause :
  positives clause = [] → negatives clause = [] →
  repair_unsatisfied_result target (current_horn_count st) clause = clause.
Proof.
  intros Hpos Hneg.
  unfold repair_unsatisfied_result, repair_le_horn_result,
    repair_gt_result, flip_first_negative.
  repeat case_bool_decide; try done;
    auto using negate_first_positive_id, flip_first_negatives_id.
Qed.

Lemma repair_unsatisfied_result_cases clause :
  Forall (disagrees sol) clause →
  is_clause_satisfied
    (repair_unsatisfied_result target (current_horn_count st) clause) sol
  = Some true
  ∨ (repair_unsatisfied_result target (current_horn_count st) clause
     = clause
     ∧ positive_count clause = 0%nat).
Proof.
  intros Hun.
  destruct (decide (positives clause = [])) as [Hpos|Hpos];
    [destruct (decide (negatives clause = [])) as [Hneg|Hneg]|].
  - right. split; [by apply repair_unsatisfied_result_id|].
    by apply positives_nil_count.
  - left. apply repair_unsatisfied_result_sat_lit; [done|by right].
  - left. apply repair_unsatisfied_result_sat_lit; [done|by left].
Qed.

Lemma is_horn_decide clause :
  is_horn clause = bool_decide (length (positives clause) ≤ 1)%nat.
Proof.
  pose proof (is_horn_positives clause) as Hh.
  destruct (is_horn clause); case_bool_decide; try done.
  - exfalso. tauto.
  - exfalso. destruct Hh as [_ Hh]. by specialize (Hh ltac:(done)).
Qed.

Lemma not_horn_decide clause :
  bool_decide (1 < length (positives clause))%nat = negb (is_horn clause).
Proof.
  rewrite is_horn_decide. do 2 case_bool_decide; simpl; try done; lia.
Qed.

(** The loop body moves the tracker by what it does to the clause:
    up by one when the clause becomes Horn, down by one when it stops
    being Horn. *)
Lemma repair_clause_tracker clause st' clause' :
  repair_clause target st clause = Some (st', clause') →
  current_horn_count st' - current_horn_count st
  = (if is_horn clause' then 1 else 0) - (if is_horn clause then 1 else 0).
Proof.
  destruct (is_clause_satisfied clause sol) as [[|]|] eqn:Hsat.
  - rewrite repair_clause_satisfied by done. intros [= <- <-]. lia.
  - apply is_clause_satisfied_false in Hsat as Hun.
    rewrite repair_clause_unsatisfied_eq by done.
    set (r := repair_unsatisfied_result target (current_horn_count st)
                                        clause).
    pose proof (repair_unsatisfied_result_cases clause Hun) as Hcases.
    fold r in Hcases.
    assert (is_horn clause = negb (bool_decide (1 < positive_count clause)%nat))
      as Hclause.
    { unfold is_horn. case_bool_decide; simpl.
      - apply Nat.leb_gt. lia.
      - apply Nat.leb_le. lia. }
    unfold bump_if_horn, drop_if_not_horn.
    rewrite not_horn_decide, <- is_horn_decide.
    rewrite Hclause.
    destruct Hcases as [Hsat'|[Hid Hzero]].
    + rewrite Hsat'. simpl.
      case_bool_decide; simpl; intros [= <- <-]; fold r;
        destruct (is_horn r); simpl; lia.
    + rewrite Hid. rewrite Hsat. simpl.
      rewrite bool_decide_eq_false_2 by lia. simpl.
      intros [= <- <-].
      assert (is_horn clause = true) as ->; [|lia].
      unfold is_horn. apply Nat.leb_le. lia.
  - unfold repair_clause. rewrite Hsat. done.
Qed.

End tracker.

Lemma repair_loop_tracker target st clauses st' clauses' :
  repair_loop target st clauses = Some (st', clauses') →
  current_horn_count st' - current_horn_count st
  = count_horn_clauses clauses' - count_horn_clauses clauses.
Proof.
  revert st clauses'.
  induction clauses as [|clause rest IH]; intros st clauses'; simpl.
  { intros [= <- <-]. lia. }
  destruct (repair_clause target st clause) as [[st1 clause']|] eqn:Hc;
    simpl; [|done].
  destruct (repair_loop target st1 rest) as [[st2 rest']|] eqn:Hr;
    simpl; [|done].
  intros [= <- <-].
  apply repair_clause_tracker in Hc. apply IH in Hr.
  rewrite !count_horn_clauses_cons. lia.
Qed.

(** X5.  The tracker of the repairer is exact: when [make_satisfiable]
    returns, [current_horn_count] is the Horn count of the clauses it
    returns; along the clause loop, from any state, the tracker moves
    by the change of the Horn count. *)
Theorem make_satisfiable_tracker_exact
    (clauses : list (list Z)) (num_vars target : Z) (choices : nat → bool)
    (st' : repair_state) (clauses' : list (list Z)) :
  make_satisfiable_run clauses num_vars target choices
  = Some (st', clauses') →
  current_horn_count st' = count_horn_clauses clauses'.
Proof.
  unfold make_satisfiable_run. intros Hrun%repair_loop_tracker.
  simpl in Hrun. lia.
Qed.

Lemma make_satisfiable_tracker_exact_witness :
  ∃ st' clauses',
    make_satisfiable_run [[1; 2]; [-1; -2]; [-1; 2]; [1; -2]] 2 0
                         (λ _, true)
    = Some (st', clauses')
    ∧ current_horn_count st' = count_horn_clauses clauses'.
Proof.
  eexists _, _. split; [reflexivity|].
  eapply (make_satisfiable_tracker_exact
            [[1; 2]; [-1; -2]; [-1; 2]; [1; -2]] 2 0 (λ _, true)).
  reflexivity.
Defined.

(** X6.  While the tracker is at most the target, repairing a clause
    never costs a Horn clause: a Horn clause stays Horn, and the tracker
    stays or goes up by one. *)
Theorem repair_at_target_keeps_horn
    (target : Z) (st st' : repair_state) (clause clause' : list Z) :
  current_horn_count st ≤ target →
  repair_clause target st clause = Some (st', clause') →
  (is_horn clause = true → is_horn clause' = true)
  ∧ current_horn_count st ≤ current_horn_count st'
    ≤ current_horn_count st + 1.
Proof.
  intros Hcount Hrun.
  pose proof (repair_clause_tracker _ _ _ _ _ Hrun) as Htrack.
  assert (is_horn clause = true → is_horn clause' = true) as Hkeep.
  { intros Hh.
    destruct (is_clause_satisfied clause (solution st)) as [[|]|] eqn:Hsat.
    - rewrite repair_clause_satisfied in Hrun by done.
      by injection Hrun as <- <-.
    - apply is_clause_satisfied_false in Hsat as Hun.
      destruct (repair_clause_unsatisfied target st clause Hun)
        as (st1 & Hrun1 & _).
      rewrite Hrun1 in Hrun. injection Hrun as <- <-.
      unfold is_horn in Hh. apply Nat.leb_le in Hh.
      unfold repair_unsatisfied_result.
      rewrite bool_decide_eq_true_2 by done.
      rewrite bool_decide_eq_false_2 by lia.
      unfold is_horn, repair_le_horn_result, flip_first_negative.
      apply Nat.leb_le. case_bool_decide as Hp.
      + apply positives_nil_count in Hp.
        pose proof (positive_count_flip_first_negative clause). lia.
      + rewrite positive_count_negate_first. lia.
    - unfold repair_clause in Hrun. by rewrite Hsat in Hrun. }
  split; [done|].
  destruct (is_horn clause) eqn:Hh.
  - rewrite Hkeep in Htrack by done. lia.
  - destruct (is_horn clause'); lia.
Qed.

Lemma repair_at_target_keeps_horn_witness :
  repair_clause 5 (RepairState (<[1 := true]> (<[2 := true]> ∅)) 1) [-1; -2]
  = Some (RepairState (<[1 := true]> (<[2 := true]> ∅)) 1, [1; -2])
  ∧ is_horn [1; -2] = true.
Proof.
  destruct (repair_at_target_keeps_horn
              5 (RepairState (<[1 := true]> (<[2 := true]> ∅)) 1)
              (RepairState (<[1 := true]> (<[2 := true]> ∅)) 1)
              [-1; -2] [1; -2])
    as [Hkeep _].
  - simpl. lia.
  - reflexivity.
  - split; [reflexivity|]. apply Hkeep. reflexivity.
Defined.

(** ** When the repairer raises, and what it leaves alone *)

Section repair_errors.

Lemma is_clause_satisfied_None sol clause :
  is_clause_satisfied clause sol = None
  ↔ ∃ pre lit suf,
      clause = pre ++ lit :: suf
      ∧ Forall (disagrees sol) pre
      ∧ sol !! Z.abs lit = None.
Proof.
  induction clause as [|lit rest IH]; simpl.
  { split; [done|]. intros (pre & l & suf & Heq & _).
    by destruct pre. }
  destruct (sol !! Z.abs lit) as [b|] eqn:Hlit; simpl.
  - destruct (Bool.eqb b (0 <? lit)) eqn:Hb.
    + split; [done|]. intros (pre & l & suf & Heq & Hpre & Hl).
      destruct pre as [|x pre]; simpl in Heq.
      * injection Heq as <- <-. congruence.
      * injection Heq as <- ->.
        apply Forall_cons in Hpre as [Hx _]. unfold disagrees in Hx.
        rewrite Hlit in Hx. injection Hx as ->.
        by destruct (0 <? lit).
    + rewrite IH. split.
      * intros (pre & l & suf & -> & Hpre & Hl).
        exists (lit :: pre), l, suf. split; [done|]. split; [|done].
        constructor; [|done]. unfold disagrees. rewrite Hlit.
        by destruct b, (0 <? lit).
      * intros (pre & l & suf & Heq & Hpre & Hl).
        destruct pre as [|x pre]; simpl in Heq.
        -- injection Heq as <- <-. congruence.
        -- injection Heq as <- ->.
           apply Forall_cons in Hpre as [_ Hpre]. by exists pre, l, suf.
  - split; [|done]. intros _. exists [], lit, rest. by repeat split.
Qed.

Lemma repair_loop_None target st clauses :
  repair_loop target st clauses = None
  ↔ Exists (λ clause, is_clause_satisfied clause (solution st) = None)
           clauses.
Proof.
  revert st. induction clauses as [|clause rest IH]; intros st; simpl.
  { split; [done|]. by intros ?%Exists_nil. }
  rewrite Exists_cons.
  destruct (is_clause_satisfied clause (solution st)) as [[|]|] eqn:Hsat.
  - rewrite repair_clause_satisfied by done. simpl. rewrite <- IH.
    destruct (repair_loop target st rest) as [[? ?]|]; simpl.
    + split; [done|]. intros [?|?]; done.
    + split; [by right|done].
  - apply is_clause_satisfied_false in Hsat.
    destruct (repair_clause_unsatisfied target st clause Hsat)
      as (st1 & -> & Hst1).
    simpl. rewrite <- Hst1, <- IH.
    destruct (repair_loop target st1 rest) as [[? ?]|]; simpl.
    + split; [done|]. intros [?|?]; done.
    + split; [by right|done].
  - unfold repair_clause. rewrite Hsat. simpl. split; [by left|done].
Qed.

(** A clause that is satisfied when the loop reaches it is returned as
    it is. *)
Lemma repair_loop_untouched target st clauses st' clauses' :
  repair_loop target st clauses = Some (st', clauses') →
  Forall2 (λ clause clause',
             is_clause_satisfied clause (solution st) = Some true →
             clause' = clause)
          clauses clauses'.
Proof.
  revert st clauses'.
  induction clauses as [|clause rest IH]; intros st clauses'; simpl.
  { intros [= <- <-]. constructor. }
  destruct (repair_clause target st clause) as [[st1 clause']|] eqn:Hc;
    simpl; [|done].
  destruct (repair_loop target st1 rest) as [[st2 rest']|] eqn:Hr;
    simpl; [|done].
  intros [= <- <-]. constructor.
  - intros Hsat. rewrite repair_clause_satisfied in Hc by done.
    by injection Hc as <- <-.
  - apply repair_clause_frame in Hc as [<- _]. by apply IH.
Qed.

Lemma scan_clause_keeps num_vars clause sol var b :
  sol !! var = Some b → scan_clause num_vars clause sol !! var = Some b.
Proof.
  revert sol. induction clause as [|lit rest IH]; intros sol Hv; [done|].
  simpl. destruct (sol !! Z.abs lit) eqn:Hlit; [by apply IH|].
  assert (<[Z.abs lit := (0 <? lit)]> sol !! var = Some b) as Hins.
  { rewrite lookup_insert_ne; [done|]. congruence. }
  case_bool_decide; [done|]. by apply IH.
Qed.

Lemma scan_clauses_keeps num_vars clauses sol var b :
  sol !! var = Some b → scan_clauses num_vars clauses sol !! var = Some b.
Proof.
  revert sol. induction clauses as [|clause rest IH]; intros sol Hv; [done|].
  simpl. pose proof (scan_clause_keeps num_vars clause sol var b Hv) as Hc.
  case_bool_decide; [done|]. by apply IH.
Qed.

End repair_errors.

(** X7.  [make_satisfiable] raises [KeyError] exactly when some clause
    has a literal whose variable the assignment lacks while every
    literal before it in that clause is false; in particular a missing
    variable behind a true literal goes unnoticed. *)
Theorem make_satisfiable_key_error_iff
    (clauses : list (list Z)) (num_vars target : Z) (choices : nat → bool) :
  make_satisfiable clauses num_vars target choices = None
  ↔ ∃ clause pre lit suf,
      clause ∈ clauses
      ∧ clause = pre ++ lit :: suf
      ∧ Forall (disagrees (generate_solution num_vars clauses choices)) pre
      ∧ generate_solution num_vars clauses choices !! Z.abs lit = None.
Proof.
  unfold make_satisfiable, make_satisfiable_run.
  rewrite fmap_None, repair_loop_None, Exists_exists. simpl. split.
  - intros (clause & Hin & (pre & lit & suf & Heq & Hpre & Hlit)
                           %is_clause_satisfied_None).
    by exists clause, pre, lit, suf.
  - intros (clause & pre & lit & suf & Hin & Heq & Hpre & Hlit).
    exists clause. split; [done|]. apply is_clause_satisfied_None.
    by exists pre, lit, suf.
Qed.

(** X8.  The repairer leaves every satisfied clause as it is, and on a
    well-formed formula the clauses it changes are exactly the ones
    the assignment does not satisfy. *)
Theorem make_satisfiable_changes_unsatisfied
    (clauses clauses' : list (list Z)) (num_vars target : Z)
    (choices : nat → bool) :
  make_satisfiable clauses num_vars target choices = Some clauses' →
  Forall2 (λ clause clause',
             is_clause_satisfied
               clause (generate_solution num_vars clauses choices)
             = Some true →
             clause' = clause)
          clauses clauses'
  ∧ (well_formed num_vars clauses →
     Forall2 (λ clause clause',
                clause' = clause
                ↔ is_clause_satisfied
                    clause (generate_solution num_vars clauses choices)
                  = Some true)
             clauses clauses').
Proof.
  unfold make_satisfiable, make_satisfiable_run. intros Hrun.
  destruct (repair_loop _ _ clauses) as [[st' clauses'']|] eqn:Hloop;
    [|done].
  injection Hrun as ->.
  pose proof (repair_loop_untouched _ _ _ _ _ Hloop) as Hsame.
  simpl in Hsame. split; [done|]. intros Hwf.
  destruct (repair_loop_satisfies target
              {| solution := generate_solution num_vars clauses choices;
                 current_horn_count := count_horn_clauses clauses |}
              clauses (well_formed_repairable _ _ _ Hwf))
    as (st1 & clauses1 & Hloop1 & _ & _ & Hall).
  rewrite Hloop in Hloop1. injection Hloop1 as <- <-. simpl in Hall.
  clear Hloop Hwf.
  set (sol := generate_solution num_vars clauses choices) in *.
  clearbody sol.
  induction Hsame as [|c c' cs cs' Hc _ IH]; [constructor|].
  apply Forall_cons in Hall as [Hc' Hall].
  constructor; [|by apply IH].
  split; [by intros ->|done].
Qed.

Lemma make_satisfiable_changes_unsatisfied_witness :
  make_satisfiable [[1; 2]; [-1; -2]; [-1; 2]; [1; -2]] 2 0 (λ _, true)
  = Some [[1; 2]; [1; 2]; [-1; 2]; [1; -2]]
  ∧ Forall2 (λ clause clause',
               clause' = clause
               ↔ is_clause_satisfied
                   clause
                   (generate_solution
                      2 [[1; 2]; [-1; -2]; [-1; 2]; [1; -2]] (λ _, true))
                 = Some true)
            [[1; 2]; [-1; -2]; [-1; 2]; [1; -2]]
            [[1; 2]; [1; 2]; [-1; 2]; [1; -2]].
Proof.
  assert (make_satisfiable [[1; 2]; [-1; -2]; [-1; 2]; [1; -2]] 2 0
                           (λ _, true)
          = Some [[1; 2]; [1; 2]; [-1; 2]; [1; -2]]) as Hrun
    by reflexivity.
  split; [exact Hrun|].
  destruct (make_satisfiable_changes_unsatisfied _ _ _ _ _ Hrun)
    as [_ Hexact].
  apply Hexact. repeat constructor; simpl; try done; lia.
Defined.

(** X9.  The assignment [generate_solution] builds always satisfies a
    non-empty first clause, whatever [num_vars] is: its first literal
    sets its own variable.  So [make_satisfiable] never changes the
    first clause. *)
Theorem generate_solution_satisfies_first_clause
    (num_vars : Z) (clause : list Z) (rest : list (list Z))
    (choices : nat → bool) :
  clause ≠ [] →
  is_clause_satisfied
    clause (generate_solution num_vars (clause :: rest) choices)
  = Some true
  ∧ ∀ target clauses',
      make_satisfiable (clause :: rest) num_vars target choices
      = Some clauses' →
      clauses' !! 0%nat = Some clause.
Proof.
  intros Hne. destruct clause as [|lit lits]; [done|].
  assert (generate_solution num_vars ((lit :: lits) :: rest) choices
          !! Z.abs lit = Some (0 <? lit)) as Hlit.
  { assert (scan_clause num_vars (lit :: lits) ∅ !! Z.abs lit
            = Some (0 <? lit)) as Hc.
    { simpl. rewrite lookup_empty.
      case_bool_decide;
        [apply lookup_insert_eq|apply scan_clause_keeps, lookup_insert_eq]. }
    unfold generate_solution. apply fill_unset_keeps.
    cbn [scan_clauses].
    destruct (bool_decide _); [exact Hc|by apply scan_clauses_keeps]. }
  assert (is_clause_satisfied
            (lit :: lits)
            (generate_solution num_vars ((lit :: lits) :: rest) choices)
          = Some true) as Hsat.
  { simpl. rewrite Hlit. simpl. by rewrite Bool.eqb_reflx. }
  split; [exact Hsat|]. intros target clauses' Hrun.
  unfold make_satisfiable, make_satisfiable_run in Hrun.
  destruct (repair_loop _ _ _) as [[st' clauses'']|] eqn:Hloop; [|done].
  injection Hrun as ->.
  apply repair_loop_untouched in Hloop. simpl in Hloop.
  apply Forall2_cons_inv_l in Hloop as (c' & cs' & Hc & _ & ->).
  simpl. f_equal. by apply Hc.
Qed.

Lemma generate_solution_satisfies_first_clause_witness :
  is_clause_satisfied [-2; 1] (generate_solution 0 [[-2; 1]; [2]] (λ _, true))
  = Some true.
Proof.
  destruct (generate_solution_satisfies_first_clause
              0 [-2; 1] [[2]] (λ _, true)) as [Hsat _]; [discriminate|].
  exact Hsat.
Defined.

(** ** Satisfaction under a total assignment *)

Section satisfaction.

Variable sol : gmap Z bool.

Lemma is_clause_satisfied_true clause :
  Forall (λ lit, is_Some (sol !! Z.abs lit)) clause →
  is_clause_satisfied clause sol = Some true ↔ Exists (agrees sol) clause.
Proof.
  unfold agrees. induction 1 as [|lit rest [b Hb] _ IH]; simpl.
  { split; [done|]. by intros ?%Exists_nil. }
  rewrite Hb, Exists_cons, Hb. simpl.
  destruct (Bool.eqb b (0 <? lit)) eqn:Heq.
  - apply Bool.eqb_prop in Heq as ->. split; [by left|done].
  - rewrite IH. split; [by right|]. intros [[= ->]|?]; [|done].
    by rewrite Bool.eqb_reflx in Heq.
Qed.

Lemma lookups_defined_Permutation clause clause' :
  clause ≡ₚ clause' →
  Forall (λ lit, is_Some (sol !! Z.abs lit)) clause →
  Forall (λ lit, is_Some (sol !! Z.abs lit)) clause'.
Proof. intros Hperm. by rewrite Hperm. Qed.

End satisfaction.

(** X10.  When the assignment has every variable of the clause,
    [is_clause_satisfied] returns, answers [True] exactly when some
    literal is true under the assignment, and does not depend on the
    order of the literals. *)
Theorem is_clause_satisfied_total_assignment
    (sol : gmap Z bool) (clause : list Z) :
  Forall (λ lit, is_Some (sol !! Z.abs lit)) clause →
  is_Some (is_clause_satisfied clause sol)
  ∧ (is_clause_satisfied clause sol = Some true
     ↔ Exists (agrees sol) clause)
  ∧ ∀ clause', clause ≡ₚ clause' →
               is_clause_satisfied clause' sol
               = is_clause_satisfied clause sol.
Proof.
  intros Hdef.
  pose proof (is_clause_satisfied_total sol clause Hdef) as Htotal.
  pose proof (is_clause_satisfied_true sol clause Hdef) as Htrue.
  split; [done|]. split; [done|]. intros clause' Hperm.
  pose proof (lookups_defined_Permutation sol _ _ Hperm Hdef) as Hdef'.
  pose proof (is_clause_satisfied_true sol clause' Hdef') as Htrue'.
  assert (Exists (agrees sol) clause' ↔ Exists (agrees sol) clause) as Hex.
  { rewrite !Exists_exists. by setoid_rewrite Hperm. }
  rewrite Hex in Htrue'.
  destruct (is_clause_satisfied_total sol clause' Hdef') as [[|] Hs'];
    destruct Htotal as [[|] Hs]; rewrite Hs, Hs'; try done.
  - rewrite Hs' in Htrue'. rewrite Hs in Htrue.
    destruct Htrue as [_ Htrue]. destruct Htrue' as [Htrue' _].
    by rewrite Htrue by (by apply Htrue').
  - rewrite Hs' in Htrue'. rewrite Hs in Htrue.
    destruct Htrue as [Htrue _]. destruct Htrue' as [_ Htrue'].
    by rewrite Htrue' by (by apply Htrue).
Qed.

Lemma is_clause_satisfied_total_assignment_witness :
  is_clause_satisfied [2; -1] (<[1 := true]> (<[2 := true]> ∅))
  = is_clause_satisfied [-1; 2] (<[1 := true]> (<[2 := true]> ∅)).
Proof.
  destruct (is_clause_satisfied_total_assignment
              (<[1 := true]> (<[2 := true]> ∅)) [-1; 2])
    as (_ & _ & Hperm).
  - repeat constructor; by eexists.
  - apply Hperm. apply Permutation_swap.
Defined.

(** Without the missing key the order matters: the same literals raise
    [KeyError] in one order and are satisfied in the other. *)
Example is_clause_satisfied_order_matters :
  is_clause_satisfied [1; 2] (<[1 := true]> ∅) = Some true
  ∧ is_clause_satisfied [2; 1] (<[1 := true]> ∅) = None.
Proof. split; reflexivity. Qed.

(** X11.  When every variable of [1..num_vars] occurs in a formula
    whose literals are in range, no random draw is used: the assignment
    and the outcome of [make_satisfiable] do not depend on the random
    source. *)
Theorem generate_solution_draws_nothing
    (num_vars : Z) (clauses : list (list Z)) (choices1 choices2 : nat → bool) :
  Forall (literals_in_range num_vars) clauses →
  (∀ var, 1 ≤ var ≤ num_vars →
          first_polarity var (concat clauses) ≠ None) →
  generate_solution num_vars clauses choices1
  = generate_solution num_vars clauses choices2
  ∧ ∀ target,
      make_satisfiable clauses num_vars target choices1
      = make_satisfiable clauses num_vars target choices2.
Proof.
  intros Hwf Hocc.
  assert (generate_solution num_vars clauses choices1
          = generate_solution num_vars clauses choices2) as Heq.
  { unfold generate_solution.
    assert (Hempty : in_range num_vars ∅).
    { intros var. rewrite lookup_empty. by intros [? ?]. }
    rewrite scan_clauses_spec by done.
    apply map_eq. intros var.
    destruct (scan_literals (concat clauses) ∅ !! var) as [b|] eqn:Hscan.
    - by rewrite !(fill_unset_keeps _ _ _ _ _ b).
    - rewrite !fill_unset_other; [done| |].
      + rewrite elem_of_seqZ. intros Hr. apply (Hocc var); [lia|].
        by rewrite scan_literals_lookup, lookup_empty in Hscan.
      + rewrite elem_of_seqZ. intros Hr. apply (Hocc var); [lia|].
        by rewrite scan_literals_lookup, lookup_empty in Hscan. }
  split; [done|]. intros target.
  unfold make_satisfiable, make_satisfiable_run. by rewrite Heq.
Qed.

Lemma generate_solution_draws_nothing_witness :
  generate_solution 2 [[-2; 1]; [2; -1]] (λ _, true)
  = generate_solution 2 [[-2; 1]; [2; -1]] (λ _, false).
Proof.
  destruct (generate_solution_draws_nothing
              2 [[-2; 1]; [2; -1]] (λ _, true) (λ _, false)) as [Heq _].
  - repeat constructor; simpl; lia.
  - intros var Hvar.
    destruct (decide (var = 1)) as [->|?]; [done|].
    assert (var = 2) as -> by lia. done.
  - exact Heq.
Defined.

(** Out-of-range literals break this: with [num_vars = 1] the scan of
    [[5], [1]] stops after the [5], and variable [1] is drawn. *)
Example generate_solution_out_of_range_draws :
  generate_solution 1 [[5]; [1]] (λ _, true) !! 1 = Some true
  ∧ generate_solution 1 [[5]; [1]] (λ _, false) !! 1 = Some false.
Proof. split; reflexivity. Qed.

(** ** Targets and variants *)

(** X12.  With at most as many variants as the header declares
    clauses, every target lies between [0] and [num_clauses - step]:
    no variant is asked for more Horn clauses than the formula has
    clauses, and none for a formula of Horn clauses only. *)
Theorem variant_targets_in_range (num_clauses count : Z) :
  0 < count ≤ num_clauses →
  ∃ step targets,
    variant_step num_clauses count = Some step
    ∧ variant_targets num_clauses count = Some targets
    ∧ 1 ≤ step
    ∧ Forall (λ target, 0 ≤ target ≤ num_clauses - step) targets.
Proof.
  intros [Hpos Hle].
  assert (1 ≤ num_clauses `div` count) as Hstep.
  { apply Z.div_le_lower_bound; lia. }
  assert (count * (num_clauses `div` count) ≤ num_clauses) as Hmul.
  { apply Z.mul_div_le. lia. }
  exists (num_clauses `div` count),
    ((λ i, i * (num_clauses `div` count)) <$> py_range count).
  unfold variant_targets, variant_step, py_floordiv.
  rewrite bool_decide_eq_false_2 by lia. simpl.
  rewrite Z.max_l by lia. split; [done|]. split; [done|]. split; [done|].
  apply Forall_fmap, Forall_forall. intros i Hi%elem_of_seqZ. simpl. nia.
Qed.

Lemma variant_targets_in_range_witness :
  ∃ step targets,
    variant_targets 7 3 = Some targets
    ∧ Forall (λ target, 0 ≤ target ≤ 7 - step) targets.
Proof.
  destruct (variant_targets_in_range 7 3)
    as (step & targets & _ & Hrun & _ & Hall); [lia|].
  exists step, targets. split; [exact Hrun|exact Hall].
Defined.

(** X13.  The edges of the variant count: [count = 0] is the only
    value that raises ([ZeroDivisionError]); a negative count asks for
    no variant at all; a count above the declared number of clauses
    gives step [1] and the targets [0, 1, ..., count - 1], some of them
    beyond the number of clauses. *)
Theorem variant_targets_edges (num_clauses count : Z) :
  (variant_targets num_clauses count = None ↔ count = 0)
  ∧ (count < 0 → variant_targets num_clauses count = Some [])
  ∧ (0 ≤ num_clauses < count →
     variant_step num_clauses count = Some 1
     ∧ variant_targets num_clauses count = Some (py_range count)).
Proof.
  unfold variant_targets, variant_step, py_floordiv, py_range.
  split; [|split].
  - case_bool_decide as Hz; simpl; [done|]. split; [done|lia].
  - intros Hneg. rewrite bool_decide_eq_false_2 by lia. simpl.
    by rewrite seqZ_nil by lia.
  - intros Hsmall. rewrite bool_decide_eq_false_2 by lia. simpl.
    rewrite Z.div_small by lia. split; [done|]. f_equal.
    rewrite <- (list_fmap_id (seqZ 0 count)) at 2.
    apply list_fmap_ext. intros _ i _. simpl. lia.
Qed.

Lemma variant_targets_edges_witness :
  variant_targets 5 (-2) = Some []
  ∧ variant_targets 2 5 = Some (py_range 5).
Proof.
  split.
  - destruct (variant_targets_edges 5 (-2)) as (_ & Hneg & _).
    apply Hneg. lia.
  - destruct (variant_targets_edges 2 5) as (_ & _ & Hbig).
    apply Hbig. lia.
Defined.

(** X14.  The Horn count lies between [0] and the number of clauses,
    equals it exactly for a formula of Horn clauses only, and adds up
    over concatenation. *)
Theorem count_horn_clauses_bounds (clauses more : list (list Z)) :
  0 ≤ count_horn_clauses clauses ≤ Z.of_nat (length clauses)
  ∧ (count_horn_clauses clauses = Z.of_nat (length clauses)
     ↔ Forall (λ clause, is_horn clause = true) clauses)
  ∧ count_horn_clauses (clauses ++ more)
    = count_horn_clauses clauses + count_horn_clauses more.
Proof.
  split; [|split].
  - pose proof (horn_partition clauses).
    rewrite count_horn_clauses_spec in *. lia.
  - apply count_horn_clauses_all.
  - induction clauses as [|clause rest IH].
    { rewrite app_nil_l, count_horn_clauses_nil. lia. }
    rewrite <- app_comm_cons, !count_horn_clauses_cons, IH. lia.
Qed.

Section variants.

Lemma same_variables_refl clauses : same_variables clauses clauses.
Proof. by apply Forall_Forall2_diag, Forall_forall. Qed.

Lemma same_variables_trans cs1 cs2 cs3 :
  same_variables cs1 cs2 → same_variables cs2 cs3 → same_variables cs1 cs3.
Proof.
  unfold same_variables. intros H12. revert cs3.
  induction H12 as [|c1 c2 cs1 cs2 Hc _ IH]; intros cs3 H23.
  { apply Forall2_nil_inv_l in H23 as ->. constructor. }
  apply Forall2_cons_inv_l in H23 as (c3 & cs3' & Hc3 & Hrest & ->).
  constructor; [congruence|by apply IH].
Qed.

Lemma same_variables_well_formed num_vars clauses clauses' :
  same_variables clauses clauses' →
  well_formed num_vars clauses → well_formed num_vars clauses'.
Proof.
  unfold well_formed.
  induction 1 as [|c c' cs cs' Habs _ IH]; [done|].
  intros [[Hne Hlits] Hrest]%Forall_cons. constructor; [|by apply IH].
  split.
  - intros ->. destruct c; [done|discriminate].
  - apply (Forall_fmap Z.abs (λ var, 1 ≤ var ≤ num_vars)).
    rewrite Habs. by apply Forall_fmap.
Qed.

Lemma adjust_horn_count_same_variables target clauses clauses' horn_count :
  adjust_horn_count target clauses = Some (clauses', horn_count) →
  same_variables clauses clauses'.
Proof.
  intros Hrun.
  destruct (adjust_horn_count_cases target clauses)
    as [[_ Heq]|[[_ Heq]|[_ Heq]]];
    rewrite Heq in Hrun; injection Hrun as <- <-.
  - eapply Forall2_impl; [apply increase_spec_direction|].
    apply only_negated_abs.
  - eapply Forall2_impl; [apply decrease_spec_direction|].
    apply only_asserted_abs.
  - apply same_variables_refl.
Qed.

Lemma adjust_horn_count_total target clauses :
  ∃ adjusted horn_count,
    adjust_horn_count target clauses = Some (adjusted, horn_count).
Proof.
  destruct (adjust_horn_count_cases target clauses)
    as [[_ ->]|[[_ ->]|[_ ->]]]; by eexists _, _.
Qed.

(** One variant of a well-formed seed. *)
Lemma generate_instance_well_formed
    clauses num_vars step i repair choices :
  well_formed num_vars clauses →
  ∃ adjusted horn_count variant,
    adjust_horn_count (i * step) clauses = Some (adjusted, horn_count)
    ∧ generate_instance clauses num_vars step i repair choices
      = Some variant
    ∧ same_variables clauses variant
    ∧ well_formed num_vars variant
    ∧ (repair = false → variant = adjusted)
    ∧ (repair = true →
       satisfies (generate_solution num_vars adjusted choices) variant).
Proof.
  intros Hwf.
  destruct (adjust_horn_count_total (i * step) clauses)
    as (adjusted & horn_count & Hadj).
  pose proof (adjust_horn_count_same_variables _ _ _ _ Hadj) as Hvars.
  pose proof (same_variables_well_formed _ _ _ Hvars Hwf) as Hwf'.
  exists adjusted, horn_count. unfold generate_instance. rewrite Hadj.
  simpl. destruct repair.
  - destruct (repair_loop_satisfies (i * step)
                {| solution := generate_solution num_vars adjusted choices;
                   current_horn_count := count_horn_clauses adjusted |}
                adjusted (well_formed_repairable _ _ _ Hwf'))
      as (st' & variant & Hloop & _ & _ & Hall).
    exists variant. unfold make_satisfiable, make_satisfiable_run.
    rewrite Hloop. simpl. split; [done|]. split; [done|].
    assert (same_variables clauses variant) as Hvars'.
    { apply (same_variables_trans _ adjusted); [done|].
      apply repair_loop_frame in Hloop as [_ Hframe].
      eapply Forall2_impl; [exact Hframe|]. by intros c c' [Habs _]. }
    split; [done|]. split; [by eapply same_variables_well_formed|].
    split; [done|]. by intros _.
  - exists adjusted. by repeat split.
Qed.

End variants.

(** C10. For a positive [count] the division of line 118 does not fail
    and the step is [max (num_clauses // count) 1].
    [create_horn_instances] returns exactly when each of its [count]
    workers returns, and the formula of worker [i], for [i] from [0] to
    [count - 1], is the one the adjuster and, when the coin asks for it,
    the repairer make of the seed with the target [i * step].  With
    [count = 1] the step is [max num_clauses 1] and the single formula
    is made with the target [0]. *)
Theorem variant_targets_correct
    (clauses : list (list Z)) (num_vars num_clauses count : Z)
    (repairs : Z → bool) (choices : Z → nat → bool) :
  0 < count →
  let step := Z.max (num_clauses `div` count) 1 in
  variant_step num_clauses count = Some step
  ∧ (∀ variants,
       create_horn_instances clauses num_vars num_clauses count
                             repairs choices
       = Some variants
       ↔ length variants = Z.to_nat count
         ∧ ∀ i, 0 ≤ i < count →
             ∃ modified_clauses horn_count sat_clauses,
               variants !! Z.to_nat i = Some sat_clauses
               ∧ adjust_horn_count (i * step) clauses
                 = Some (modified_clauses, horn_count)
               ∧ if repairs i
                 then make_satisfiable modified_clauses num_vars
                                       (i * step) (choices i)
                      = Some sat_clauses
                 else sat_clauses = modified_clauses)
  ∧ (count = 1 →
       step = Z.max num_clauses 1
       ∧ ∃ modified_clauses horn_count,
           adjust_horn_count 0 clauses
           = Some (modified_clauses, horn_count)
           ∧ create_horn_instances clauses num_vars num_clauses count
                                   repairs choices
             = (λ sat_clauses, [sat_clauses])
               <$> (if repairs 0
                    then make_satisfiable modified_clauses num_vars 0
                                          (choices 0)
                    else Some modified_clauses)).
Proof.
  intros Hc step.
  assert (Hs : variant_step num_clauses count = Some step).
  { unfold variant_step, py_floordiv. rewrite bool_decide_eq_false_2 by lia.
    done. }
  assert (Hworker : ∀ i, ∃ modified_clauses horn_count,
             adjust_horn_count (i * step) clauses
             = Some (modified_clauses, horn_count)
             ∧ generate_instance clauses num_vars step i
                                 (repairs i) (choices i)
               = if repairs i
                 then make_satisfiable modified_clauses num_vars
                                       (i * step) (choices i)
                 else Some modified_clauses).
  { intros i.
    destruct (adjust_horn_count_total (i * step) clauses)
      as (modified & horn_count & Hadj).
    exists modified, horn_count. split; [done|].
    unfold generate_instance. rewrite Hadj. done. }
  split; [done|]. split.
  - intros variants. unfold create_horn_instances. rewrite Hs. simpl.
    rewrite mapM_Some. split.
    + intros Hall. split.
      { rewrite <- (Forall2_length _ _ _ Hall). unfold py_range.
        by rewrite length_seqZ. }
      intros i Hi.
      assert (py_range count !! Z.to_nat i = Some i) as Hidx.
      { unfold py_range. apply lookup_seqZ. lia. }
      destruct (Forall2_lookup_l _ _ _ _ _ Hall Hidx)
        as (sat_clauses & Hsat & Hrun).
      destruct (Hworker i) as (modified & horn_count & Hadj & Hgen).
      exists modified, horn_count, sat_clauses.
      split; [done|]. split; [done|].
      rewrite Hgen in Hrun. destruct (repairs i); [done|].
      by injection Hrun.
    + intros [Hlen Hall]. apply Forall2_same_length_lookup_2.
      { unfold py_range. rewrite length_seqZ. lia. }
      intros n i sat_clauses Hi Hsat.
      unfold py_range in Hi. apply lookup_seqZ in Hi as [-> Hn].
      destruct (Hall (0 + Z.of_nat n))
        as (modified & horn_count & sat' & Hsat' & Hadj & Hrep); [lia|].
      replace (Z.to_nat (0 + Z.of_nat n)) with n in Hsat' by lia.
      rewrite Hsat in Hsat'. injection Hsat' as <-.
      destruct (Hworker (0 + Z.of_nat n))
        as (modified' & horn_count' & Hadj' & ->).
      rewrite Hadj in Hadj'. injection Hadj' as <- <-.
      destruct (repairs (0 + Z.of_nat n)); [done|by subst].
  - intros ->. subst step. rewrite Z.div_1_r. split; [done|].
    destruct (Hworker 0) as (modified & horn_count & Hadj & Hgen).
    rewrite Z.div_1_r in Hadj, Hgen. rewrite Z.mul_0_l in Hadj, Hgen.
    exists modified, horn_count. split; [done|].
    unfold create_horn_instances. rewrite Hs, Z.div_1_r.
    change (py_range 1) with [0].
    cbn [mbind option_bind mapM]. rewrite Hgen.
    by destruct (if repairs 0 then _ else _).
Qed.

Lemma variant_targets_correct_witness :
  variant_step 2 2 = Some 1
  ∧ ∃ modified_clauses horn_count,
      adjust_horn_count 1 [[1; 2]; [-1; -2; 3]]
      = Some (modified_clauses, horn_count)
      ∧ make_satisfiable modified_clauses 3 1 (λ _, true)
        = Some [[1; 2]; [-1; -2; 3]].
Proof.
  destruct (variant_targets_correct
              [[1; 2]; [-1; -2; 3]] 3 2 2 (λ _, true) (λ _ _, true)
              ltac:(lia))
    as (Hs & Hiff & _).
  split; [exact Hs|].
  destruct (proj1 (Hiff [[[1; 2]; [1; 2; 3]]; [[1; 2]; [-1; -2; 3]]])
                  eq_refl)
    as [_ Hall].
  destruct (Hall 1 ltac:(lia))
    as (modified & horn_count & sat_clauses & Hvariant & Hadj & Hrep).
  injection Hvariant as <-.
  exists modified, horn_count. split; [exact Hadj|exact Hrep].
Defined.

(** X15.  From a well-formed seed, any positive [count] yields exactly
    [count] variants and no worker raises.  Every variant is
    well formed and has the seed's variables at the seed's positions,
    only polarities differ; and every variant that went through the
    repairer is satisfiable. *)
Theorem create_horn_instances_well_formed
    (clauses : list (list Z)) (num_vars num_clauses count : Z)
    (repairs : Z → bool) (choices : Z → nat → bool) :
  well_formed num_vars clauses →
  0 < count →
  ∃ variants,
    create_horn_instances clauses num_vars num_clauses count repairs choices
    = Some variants
    ∧ length variants = Z.to_nat count
    ∧ ∀ i variant,
        variants !! i = Some variant →
        well_formed num_vars variant
        ∧ same_variables clauses variant
        ∧ (repairs (Z.of_nat i) = true → ∃ sol, satisfies sol variant).
Proof.
  intros Hwf Hcount. unfold create_horn_instances, variant_step, py_floordiv.
  rewrite bool_decide_eq_false_2 by lia. simpl.
  set (step := Z.max (num_clauses `div` count) 1).
  set (run := λ i, generate_instance clauses num_vars step i
                     (repairs i) (choices i)).
  destruct (mapM_is_Some_2 run (py_range count)) as [variants Hmap].
  { apply Forall_forall. intros i _. unfold run. simpl.
    destruct (generate_instance_well_formed
                clauses num_vars step i (repairs i) (choices i) Hwf)
      as (? & ? & variant & _ & -> & _). done. }
  exists variants. split; [exact Hmap|].
  apply mapM_Some_1 in Hmap as Hall. split.
  - rewrite <- (Forall2_length _ _ _ Hall). unfold py_range.
    by rewrite length_seqZ.
  - intros i variant Hi.
    destruct (Forall2_lookup_r _ _ _ _ _ Hall Hi) as (z & Hz & Hrun).
    unfold py_range in Hz. apply lookup_seqZ in Hz as [-> _].
    destruct (generate_instance_well_formed
                clauses num_vars step (0 + Z.of_nat i)
                (repairs (0 + Z.of_nat i)) (choices (0 + Z.of_nat i)) Hwf)
      as (adjusted & ? & variant' & _ & Hrun' & Hvars & Hwf' & _ & Hsat).
    unfold run in Hrun. rewrite Hrun in Hrun'. injection Hrun' as <-.
    split; [done|]. split; [done|]. intros Hrep.
    exists (generate_solution num_vars adjusted (choices (0 + Z.of_nat i))).
    apply Hsat. by rewrite Z.add_0_l.
Qed.

Lemma create_horn_instances_well_formed_witness :
  ∃ variants,
    create_horn_instances [[1; 2]; [-1; -2; 3]] 3 2 2
                          (λ _, true) (λ _ _, true)
    = Some variants
    ∧ length variants = 2%nat.
Proof.
  destruct (create_horn_instances_well_formed
              [[1; 2]; [-1; -2; 3]] 3 2 2 (λ _, true) (λ _ _, true))
    as (variants & Hrun & Hlen & _).
  - repeat constructor; simpl; try done; lia.
  - lia.
  - exists variants. split; [exact Hrun|exact Hlen].
Defined.

(** X16.  When the header's clause count is the number of clauses and
    there are at most as many variants as clauses, a variant that skips
    the repairer never has fewer Horn clauses than its target
    [i * step], and has exactly that many whenever the seed has at most
    that many. *)
Theorem generate_instance_unrepaired_horn_count
    (clauses : list (list Z)) (num_vars count i : Z)
    (choices : nat → bool) :
  0 < count ≤ Z.of_nat (length clauses) →
  0 ≤ i < count →
  ∃ step variant,
    variant_step (Z.of_nat (length clauses)) count = Some step
    ∧ generate_instance clauses num_vars step i false choices
      = Some variant
    ∧ i * step ≤ count_horn_clauses variant
    ∧ (count_horn_clauses clauses ≤ i * step →
       count_horn_clauses variant = i * step).
Proof.
  intros [Hpos Hle] Hi.
  set (n := Z.of_nat (length clauses)) in *.
  assert (1 ≤ n `div` count) as Hstep.
  { apply Z.div_le_lower_bound; lia. }
  assert (count * (n `div` count) ≤ n) as Hmul.
  { apply Z.mul_div_le. lia. }
  exists (n `div` count).
  unfold variant_step, py_floordiv. rewrite bool_decide_eq_false_2 by lia.
  simpl. rewrite Z.max_l by lia.
  assert (i * (n `div` count) ≤ n) as Htarget by nia.
  unfold generate_instance.
  pose proof (horn_partition clauses) as Hpart. fold n in Hpart.
  destruct (adjust_horn_count_cases (i * (n `div` count)) clauses)
    as [[Hlt ->]|[[Hgt ->]|[Heq ->]]]; simpl; eexists;
    (split; [done|]); (split; [reflexivity|]).
  - rewrite count_increase_spec. split; lia.
  - rewrite count_decrease_spec. split; lia.
  - split; lia.
Qed.

Lemma generate_instance_unrepaired_horn_count_witness :
  ∃ step variant,
    generate_instance [[1; 2]; [3; 2; 1]; [-1; 2]] 3 step 2 false
                      (λ _, true)
    = Some variant
    ∧ count_horn_clauses variant = 2 * step.
Proof.
  destruct (generate_instance_unrepaired_horn_count
              [[1; 2]; [3; 2; 1]; [-1; 2]] 3 3 2 (λ _, true))
    as (step & variant & Hstep & Hrun & _ & Hexact).
  - simpl. lia.
  - lia.
  - exists step, variant. split; [exact Hrun|].
    apply Hexact. injection Hstep as <-. vm_compute. discriminate.
Defined.

(** ** How far the repairer moves the Horn count *)

Lemma repair_loop_drift target st clauses st' clauses' :
  repair_loop target st clauses = Some (st', clauses') →
  Z.abs (current_horn_count st' - current_horn_count st)
  ≤ Z.of_nat (unsatisfied_count (solution st) clauses).
Proof.
  revert st clauses'.
  induction clauses as [|clause rest IH]; intros st clauses'; simpl.
  { intros [= <- <-]. unfold unsatisfied_count. simpl. lia. }
  destruct (repair_clause target st clause) as [[st1 clause']|] eqn:Hc;
    simpl; [|done].
  destruct (repair_loop target st1 rest) as [[st2 rest']|] eqn:Hr;
    simpl; [|done].
  intros [= <- <-].
  pose proof (repair_clause_tracker _ _ _ _ _ Hc) as Hstep.
  pose proof (repair_clause_frame _ _ _ _ _ Hc) as [Hsol _].
  apply IH in Hr. rewrite Hsol in Hr.
  unfold unsatisfied_count in *. rewrite filter_cons.
  destruct (decide (is_clause_satisfied clause (solution st) ≠ Some true))
    as [Hunsat|Hsat]; simpl.
  - destruct (is_horn clause), (is_horn clause'); lia.
  - assert (is_clause_satisfied clause (solution st) = Some true) as Hs.
    { destruct (is_clause_satisfied clause (solution st)) as [[|]|];
        [done|exfalso; by apply Hsat..]. }
    rewrite repair_clause_satisfied in Hc by done.
    injection Hc as <- <-. lia.
Qed.

(** X17.  The repairer moves the Horn count by at most the number of
    clauses that the assignment it built leaves unsatisfied. *)
Theorem make_satisfiable_horn_drift
    (clauses clauses' : list (list Z)) (num_vars target : Z)
    (choices : nat → bool) :
  make_satisfiable clauses num_vars target choices = Some clauses' →
  Z.abs (count_horn_clauses clauses' - count_horn_clauses clauses)
  ≤ Z.of_nat (unsatisfied_count
                (generate_solution num_vars clauses choices) clauses).
Proof.
  unfold make_satisfiable, make_satisfiable_run. intros Hrun.
  destruct (repair_loop _ _ clauses) as [[st' clauses'']|] eqn:Hloop;
    [|done].
  injection Hrun as ->.
  pose proof (repair_loop_tracker _ _ _ _ _ Hloop) as Htrack.
  pose proof (repair_loop_drift _ _ _ _ _ Hloop) as Hdrift.
  simpl in *. lia.
Qed.

Lemma make_satisfiable_horn_drift_witness :
  Z.abs (count_horn_clauses [[1; 2]; [1; 2]; [-1; 2]; [1; -2]]
         - count_horn_clauses [[1; 2]; [-1; -2]; [-1; 2]; [1; -2]])
  ≤ Z.of_nat (unsatisfied_count
                (generate_solution
                   2 [[1; 2]; [-1; -2]; [-1; 2]; [1; -2]] (λ _, true))
                [[1; 2]; [-1; -2]; [-1; 2]; [1; -2]]).
Proof.
  apply (make_satisfiable_horn_drift
           [[1; 2]; [-1; -2]; [-1; 2]; [1; -2]]
           [[1; 2]; [1; 2]; [-1; 2]; [1; -2]] 2 0 (λ _, true)).
  reflexivity.
Defined.

(** ** What the greedy assignment satisfies *)

(** X18.  On a formula whose literals are in range, a clause holding a
    literal that has the polarity of the first occurrence of its
    variable is satisfied by the assignment [generate_solution] builds:
    the clauses left for the repairer are made of literals that all
    contradict an earlier occurrence of their variable. *)
Theorem generate_solution_satisfies_first_occurrences
    (num_vars : Z) (clauses : list (list Z)) (choices : nat → bool)
    (clause : list Z) (lit : Z) :
  Forall (literals_in_range num_vars) clauses →
  clause ∈ clauses →
  lit ∈ clause →
  first_polarity (Z.abs lit) (concat clauses) = Some (0 <? lit) →
  is_clause_satisfied clause (generate_solution num_vars clauses choices)
  = Some true.
Proof.
  intros Hwf Hclause Hlit Hfirst.
  assert (Forall (λ l, is_Some (generate_solution num_vars clauses choices
                                !! Z.abs l)) clause) as Hdef.
  { rewrite Forall_forall in Hwf. specialize (Hwf _ Hclause).
    eapply Forall_impl; [exact Hwf|]. simpl. intros l Hl.
    by apply generate_solution_defined. }
  apply is_clause_satisfied_true; [done|].
  apply Exists_exists. exists lit. split; [done|].
  unfold agrees, generate_solution. apply fill_unset_keeps.
  assert (Hempty : in_range num_vars ∅).
  { intros var. rewrite lookup_empty. by intros [? ?]. }
  rewrite scan_clauses_spec by done.
  by rewrite scan_literals_lookup, lookup_empty.
Qed.

Lemma generate_solution_satisfies_first_occurrences_witness :
  is_clause_satisfied
    [-1; 2] (generate_solution 2 [[1; -2]; [-1; 2; -2]; [-1; 2]] (λ _, true))
  = Some false
  ∧ is_clause_satisfied
      [-1; 2; -2]
      (generate_solution 2 [[1; -2]; [-1; 2; -2]; [-1; 2]] (λ _, true))
    = Some true.
Proof.
  split; [reflexivity|].
  apply (generate_solution_satisfies_first_occurrences
           2 [[1; -2]; [-1; 2; -2]; [-1; 2]] (λ _, true) [-1; 2; -2] (-2)).
  - repeat constructor; simpl; lia.
  - apply list_elem_of_In. simpl. tauto.
  - apply list_elem_of_In. simpl. tauto.
  - reflexivity.
Defined.

(** ** Adjusting twice *)

Section adjust_twice.

Lemma increase_spec_all_horn needed clauses :
  Forall (λ clause, is_horn clause = true) clauses →
  increase_spec needed clauses = clauses
  ∧ non_horn_count clauses = 0%nat.
Proof.
  revert needed. induction clauses as [|clause rest IH]; intros needed.
  { by destruct needed. }
  intros [Hh Hrest]%Forall_cons.
  rewrite non_horn_count_cons, Hh.
  destruct needed as [|n]; [split; [done|by apply (IH 0%nat)]|].
  cbn [increase_spec]. rewrite Hh.
  destruct (IH (S n) Hrest) as [-> ->]. done.
Qed.

(** A result of the flip with fewer than [n] positive literals has had
    all its negative literals flipped. *)
Lemma flip_first_negatives_exhausted n clause :
  (positive_count (flip_first_negatives n clause) < n)%nat →
  negatives (flip_first_negatives n clause) = [].
Proof.
  revert n. induction clause as [|lit rest IH]; intros n; [done|].
  cbn [flip_first_negatives]. case_bool_decide as Hlit.
  - destruct n as [|n]; [lia|]. cbn [positive_count].
    destruct (Z.ltb_spec 0 (Z.abs lit)); [|lia].
    intros Hlt. rewrite negatives_cons.
    rewrite bool_decide_eq_false_2 by lia. apply IH. lia.
  - cbn [positive_count]. intros Hlt. rewrite negatives_cons.
    rewrite bool_decide_eq_false_2 by done. apply IH.
    destruct (0 <? lit); lia.
Qed.

(** When the excess outlasts the eligible clauses every clause is
    visited, and a visited clause that is Horn has no negative literal
    left. *)
Lemma decrease_spec_visits excess clauses :
  (eligible_count clauses < excess)%nat →
  Forall (λ clause, is_horn clause = true → negatives clause = [])
         (decrease_spec excess clauses).
Proof.
  revert excess. induction clauses as [|clause rest IH]; intros excess.
  { destruct excess; constructor. }
  rewrite eligible_count_cons. destruct excess as [|n]; [lia|].
  cbn [decrease_spec]. destruct (is_horn clause) eqn:Hh.
  - intros Hlt. constructor.
    + intros Hh'. apply flip_first_negatives_exhausted.
      unfold is_horn in Hh'. apply Nat.leb_le in Hh'. lia.
    + apply IH. destruct (decrease_eligible clause); lia.
  - unfold decrease_eligible. rewrite Hh, andb_false_l. intros Hlt.
    constructor; [congruence|]. by apply IH.
Qed.

Lemma decrease_spec_fixed excess clauses :
  Forall (λ clause, is_horn clause = true → negatives clause = [])
         clauses →
  decrease_spec excess clauses = clauses
  ∧ eligible_count clauses = 0%nat.
Proof.
  revert excess. induction clauses as [|clause rest IH]; intros excess.
  { by destruct excess. }
  intros [Hc Hrest]%Forall_cons.
  assert (decrease_eligible clause = false) as Hel.
  { unfold decrease_eligible. destruct (is_horn clause) eqn:Hh; [|done].
    rewrite flip_first_negatives_id by (by apply Hc).
    rewrite andb_true_l. apply Nat.leb_gt.
    unfold is_horn in Hh. apply Nat.leb_le in Hh. lia. }
  rewrite eligible_count_cons, Hel.
  destruct excess as [|n]; [split; [done|by apply (IH 0%nat)]|].
  cbn [decrease_spec]. rewrite Hel.
  destruct (IH (S n) Hrest) as [-> ->].
  destruct (is_horn clause) eqn:Hh; [|done].
  by rewrite flip_first_negatives_id by (by apply Hc).
Qed.

End adjust_twice.

(** X19.  Adjusting is idempotent: running the adjuster again on its
    own result, for the same target, changes nothing, also when the
    first run stopped short of the target. *)
Theorem adjust_horn_count_idempotent
    (target : Z) (clauses clauses' : list (list Z)) (horn_count : Z) :
  adjust_horn_count target clauses = Some (clauses', horn_count) →
  adjust_horn_count target clauses' = Some (clauses', horn_count).
Proof.
  intros Hrun.
  assert (∀ cs, count_horn_clauses cs = target →
                adjust_horn_count target cs = Some (cs, target)) as Hon.
  { intros cs <-. unfold adjust_horn_count.
    by rewrite !bool_decide_eq_false_2 by lia. }
  pose proof (horn_partition clauses) as Hpart.
  destruct (adjust_horn_count_cases target clauses)
    as [[Hlt Heq]|[[Hgt Heq]|[Hsame Heq]]];
    rewrite Heq in Hrun; injection Hrun as <- <-.
  - set (cs' := increase_spec
                  (Z.to_nat (target - count_horn_clauses clauses)) clauses).
    assert (count_horn_clauses cs'
            = Z.min target (count_horn_clauses clauses
                            + Z.of_nat (non_horn_count clauses))) as Hcount.
    { unfold cs'. rewrite count_increase_spec. lia. }
    rewrite <- Hcount.
    destruct (decide (count_horn_clauses cs' = target)) as [Hhit|Hmiss].
    { rewrite Hhit. by apply Hon. }
    assert (Forall (λ clause, is_horn clause = true) cs') as Hall.
    { apply count_horn_clauses_all. unfold cs' at 2.
      rewrite increase_spec_length. lia. }
    destruct (adjust_horn_count_cases target cs')
      as [[_ ->]|[[? _]|[? _]]]; [|lia..].
    destruct (increase_spec_all_horn
                (Z.to_nat (target - count_horn_clauses cs')) cs' Hall)
      as [-> ->].
    do 2 f_equal. lia.
  - set (cs' := decrease_spec
                  (Z.to_nat (count_horn_clauses clauses - target)) clauses).
    assert (count_horn_clauses cs'
            = Z.max target (count_horn_clauses clauses
                            - Z.of_nat (eligible_count clauses))) as Hcount.
    { unfold cs'. rewrite count_decrease_spec. lia. }
    rewrite <- Hcount.
    destruct (decide (count_horn_clauses cs' = target)) as [Hhit|Hmiss].
    { rewrite Hhit. by apply Hon. }
    assert (Forall (λ clause, is_horn clause = true → negatives clause = [])
                   cs') as Hall.
    { apply decrease_spec_visits. lia. }
    destruct (adjust_horn_count_cases target cs')
      as [[? _]|[[_ ->]|[? _]]]; [lia| |lia].
    destruct (decrease_spec_fixed
                (Z.to_nat (count_horn_clauses cs' - target)) cs' Hall)
      as [-> ->].
    do 2 f_equal. lia.
  - rewrite <- Hsame. by apply Hon.
Qed.

Lemma adjust_horn_count_idempotent_witness :
  adjust_horn_count 0 [[1; 2; -1; -3]; [1; 2; 3]; [3; 2; 1]; [1]]
  = Some ([[1; 2; -1; -3]; [1; 2; 3]; [3; 2; 1]; [1]], 1).
Proof.
  apply (adjust_horn_count_idempotent
           0 [[-1; -2; -1; -3]; [-1; -2; 3]; [3; 2; 1]; [-1]]).
  reflexivity.
Defined.

(** ** The text that is written *)

Section text.

Lemma has_char_app c s1 s2 :
  has_char c (s1 +:+ s2) ↔ has_char c s1 ∨ has_char c s2.
Proof.
  induction s1 as [|c1 s1 IH]; simpl; [tauto|]. rewrite IH. tauto.
Qed.

(** A string is cut in one way only at the first occurrence of a
    character. *)
Lemma cut_at_char c a b r1 r2 :
  ¬ has_char c a → ¬ has_char c b →
  a +:+ String c r1 = b +:+ String c r2 → a = b ∧ r1 = r2.
Proof.
  revert b. induction a as [|x a IH]; intros [|y b]; simpl.
  - intros _ _ [= ->]. done.
  - intros _ Hb [= <- _]. tauto.
  - intros Ha _ [= -> _]. tauto.
  - intros Ha Hb [= -> Heq].
    destruct (IH b) as [-> ->]; [tauto..|done|done].
Qed.

Lemma pretty_N_char_cases x :
  pretty_N_char x ∈ ["0"; "1"; "2"; "3"; "4"; "5"; "6"; "7"; "8"; "9"]%char.
Proof.
  unfold pretty_N_char. repeat case_match; apply list_elem_of_In; simpl; tauto.
Qed.

Lemma pretty_N_go_no_char c x s :
  no_digit c → ¬ has_char c s → ¬ has_char c (pretty_N_go x s).
Proof.
  intros Hc. revert s. pattern x.
  apply (well_founded_ind N.lt_wf_0). clear x. intros x IH s Hs.
  destruct (N.eq_0_gt_0_cases x) as [->|Hpos].
  - by rewrite pretty_N_go_0.
  - rewrite pretty_N_go_step by done. apply IH.
    + by apply N.div_lt.
    + simpl. intros [Heq|?]; [|done]. apply Hc. rewrite <- Heq.
      apply pretty_N_char_cases.
Qed.

Lemma pretty_Z_no_char c (z : Z) :
  no_digit c → c ≠ "-"%char → ¬ has_char c (pretty z).
Proof.
  intros Hc Hdash.
  assert (∀ p, ¬ has_char c (pretty (N.pos p))) as Hpos.
  { intros p. unfold pretty, pretty_N. rewrite decide_False by done.
    apply pretty_N_go_no_char; [done|]. simpl. tauto. }
  destruct z as [|p|p]; unfold pretty, pretty_Z.
  - simpl. intros [Heq|[]]. apply Hc. rewrite <- Heq.
    apply list_elem_of_In. simpl. tauto.
  - apply Hpos.
  - simpl. intros [Heq|Hin]; [by apply Hdash|]. by apply (Hpos p).
Qed.

Lemma pretty_N_go_head x s :
  (0 < x)%N →
  ∃ d rest, pretty_N_go x s = String d rest ∧ d ≠ "0"%char.
Proof.
  revert s. pattern x.
  apply (well_founded_ind N.lt_wf_0). clear x. intros x IH s Hpos.
  rewrite pretty_N_go_step by done.
  destruct (N.lt_ge_cases x 10) as [Hsmall|Hbig].
  - rewrite N.div_small, pretty_N_go_0 by done.
    rewrite N.mod_small by done. eexists _, _. split; [done|].
    intros Hzero. apply (pretty_N_char_inj x 0) in Hzero; lia.
  - apply IH.
    + by apply N.div_lt.
    + apply N.div_str_pos. lia.
Qed.

Lemma pretty_Z_head (z : Z) :
  0 < z → ∃ d rest, pretty z = String d rest ∧ d ≠ "0"%char.
Proof.
  destruct z as [|p|p]; [lia| |lia]. intros _.
  unfold pretty, pretty_Z, pretty, pretty_positive, pretty, pretty_N.
  rewrite decide_False by done. by apply pretty_N_go_head.
Qed.

Lemma pretty_Z_nonempty (z : Z) : pretty z ≠ "".
Proof.
  destruct z as [|p|p]; unfold pretty, pretty_Z; [done| |done].
  destruct (pretty_Z_head (Z.pos p)) as (d & rest & Heq & _); [lia|].
  unfold pretty, pretty_Z in Heq. by rewrite Heq.
Qed.

Lemma space_no_digit : no_digit " "%char.
Proof.
  intros Hin%list_elem_of_In. simpl in Hin.
  repeat (destruct Hin as [Hin|Hin]; [discriminate|]). done.
Qed.

Lemma newline_no_digit : no_digit "010"%char.
Proof.
  intros Hin%list_elem_of_In. simpl in Hin.
  repeat (destruct Hin as [Hin|Hin]; [discriminate|]). done.
Qed.

Lemma dot_no_digit : no_digit "."%char.
Proof.
  intros Hin%list_elem_of_In. simpl in Hin.
  repeat (destruct Hin as [Hin|Hin]; [discriminate|]). done.
Qed.

Lemma string_app_assoc s1 s2 s3 : (s1 +:+ s2) +:+ s3 = s1 +:+ s2 +:+ s3.
Proof.
  induction s1 as [|c s1 IH]; [done|].
  change (String c ((s1 +:+ s2) +:+ s3) = String c (s1 +:+ s2 +:+ s3)).
  by f_equal.
Qed.

(** A clause line is its first literal, a space, and the line of the
    rest, or the terminator after the last literal. *)
Lemma clause_line_cons z rest :
  clause_line (z :: rest)
  = py_str z +:+ String " "%char (match rest with
                                  | [] => "0" +:+ newline
                                  | _ => clause_line rest
                                  end).
Proof.
  destruct rest as [|z' rest]; [done|]. unfold clause_line.
  rewrite !fmap_cons. cbn [py_join]. by rewrite !string_app_assoc.
Qed.

End text.

Section text_injective.

Lemma string_app_cons c s t : String c s +:+ t = String c (s +:+ t).
Proof. reflexivity. Qed.

Lemma string_app_nil t : "" +:+ t = t.
Proof. reflexivity. Qed.

Ltac string_simpl :=
  unfold newline; cbv [String.append]; fold String.append.

Lemma py_str_no_space z : ¬ has_char " "%char (py_str z).
Proof. apply pretty_Z_no_char; [apply space_no_digit|done]. Qed.

Lemma py_str_no_newline z : ¬ has_char "010"%char (py_str z).
Proof. apply pretty_Z_no_char; [apply newline_no_digit|done]. Qed.

(** A literal never starts the way the terminator ["0\n"] does. *)
Lemma py_str_not_terminator z s1 s2 r :
  (py_str z +:+ String " "%char s1) +:+ s2
  ≠ String "0"%char (String "010"%char r).
Proof.
  rewrite string_app_assoc.
  pose proof (py_str_no_newline z) as Hnl.
  pose proof (pretty_Z_nonempty z) as Hne. fold (py_str z) in Hne.
  destruct (py_str z) as [|d [|e t]]; [done|..]; string_simpl.
  - intros Heq. simplify_eq.
  - intros Heq. simplify_eq. apply Hnl. simpl. tauto.
Qed.

(** The literals of a clause with their spaces and the terminator cut
    themselves off from whatever follows. *)
Lemma clause_tail_delimited c1 c2 r1 r2 :
  match c1 with [] => "0" +:+ newline | _ => clause_line c1 end +:+ r1
  = match c2 with [] => "0" +:+ newline | _ => clause_line c2 end +:+ r2 →
  c1 = c2 ∧ r1 = r2.
Proof.
  revert c2. induction c1 as [|z1 rest1 IH]; intros [|z2 rest2].
  - string_simpl. by intros [= ->].
  - rewrite clause_line_cons.
    change (("0" +:+ newline) +:+ r1)
      with (String "0"%char (String "010"%char r1)).
    intros Heq. symmetry in Heq.
    by apply (py_str_not_terminator z2 _ r2 r1) in Heq.
  - rewrite clause_line_cons.
    change (("0" +:+ newline) +:+ r2)
      with (String "0"%char (String "010"%char r2)).
    intros Heq. by apply (py_str_not_terminator z1 _ r1 r2) in Heq.
  - rewrite !clause_line_cons, !string_app_assoc, !string_app_cons.
    intros [Hz Hrest]%cut_at_char; [|apply py_str_no_space..].
    apply (inj pretty) in Hz as ->.
    apply IH in Hrest as [-> ->]. done.
Qed.

Lemma clause_line_delimited c1 c2 r1 r2 :
  clause_line c1 +:+ r1 = clause_line c2 +:+ r2 → c1 = c2 ∧ r1 = r2.
Proof.
  destruct c1 as [|z1 rest1], c2 as [|z2 rest2].
  - unfold clause_line. cbn [fmap list_fmap py_join]. string_simpl.
    by intros [= ->].
  - rewrite clause_line_cons, string_app_assoc.
    pose proof (py_str_no_space z2) as Hsp.
    pose proof (pretty_Z_nonempty z2) as Hne. fold (py_str z2) in Hne.
    unfold clause_line. cbn [fmap list_fmap py_join].
    destruct (py_str z2) as [|d t]; [done|]. string_simpl.
    intros [= <- _]. simpl in Hsp. tauto.
  - rewrite clause_line_cons, string_app_assoc.
    pose proof (py_str_no_space z1) as Hsp.
    pose proof (pretty_Z_nonempty z1) as Hne. fold (py_str z1) in Hne.
    unfold clause_line. cbn [fmap list_fmap py_join].
    destruct (py_str z1) as [|d t]; [done|]. string_simpl.
    intros [= -> _]. simpl in Hsp. tauto.
  - apply (clause_tail_delimited (z1 :: rest1) (z2 :: rest2)).
Qed.

Lemma clause_line_nonempty c r : clause_line c +:+ r ≠ "".
Proof.
  destruct c as [|z rest].
  - unfold clause_line. cbn [fmap list_fmap py_join]. by string_simpl.
  - rewrite clause_line_cons, string_app_assoc.
    pose proof (pretty_Z_nonempty z) as Hne. fold (py_str z) in Hne.
    destruct (py_str z); [done|]. by string_simpl.
Qed.

(** The appending loop writes the lines behind what is already there. *)
Lemma cnf_lines_fold clauses acc :
  fold_left (λ acc clause, acc +:+ clause_line clause) clauses acc
  = acc +:+ foldr (λ clause rest, clause_line clause +:+ rest) "" clauses.
Proof.
  revert acc. induction clauses as [|clause rest IH]; intros acc; simpl.
  - induction acc as [|c acc IHacc]; [done|].
    rewrite string_app_cons. by f_equal.
  - by rewrite IH, string_app_assoc.
Qed.

Lemma cnf_lines_injective cs1 cs2 :
  foldr (λ clause rest, clause_line clause +:+ rest) "" cs1
  = foldr (λ clause rest, clause_line clause +:+ rest) "" cs2 →
  cs1 = cs2.
Proof.
  revert cs2. induction cs1 as [|c1 cs1 IH]; intros [|c2 cs2]; simpl.
  - done.
  - intros Heq. symmetry in Heq. by apply clause_line_nonempty in Heq.
  - intros Heq. by apply clause_line_nonempty in Heq.
  - intros [-> Hrest]%clause_line_delimited. by rewrite (IH _ Hrest).
Qed.

Lemma zeros_no_char c n : c ≠ "0"%char → ¬ has_char c (zeros n).
Proof.
  intros Hc. induction n as [|n IH]; simpl; [tauto|].
  intros [?|?]; [by apply Hc|done].
Qed.

Lemma zeros_then_digit k1 k2 d1 d2 r1 r2 :
  d1 ≠ "0"%char → d2 ≠ "0"%char →
  zeros k1 +:+ String d1 r1 = zeros k2 +:+ String d2 r2 →
  String d1 r1 = String d2 r2.
Proof.
  intros Hd1 Hd2. revert k2.
  induction k1 as [|k1 IH]; intros [|k2]; simpl.
  - done.
  - intros [= -> _]. done.
  - intros [= <- _]. done.
  - intros [= Heq]. by apply (IH k2).
Qed.

Lemma zeros_only n k d r :
  d ≠ "0"%char → zeros n ≠ zeros k +:+ String d r.
Proof.
  intros Hd. revert k. induction n as [|n IH]; intros [|k]; simpl; try done.
  - intros [= <- _]. done.
  - intros [= Heq]. by apply (IH k).
Qed.

Lemma py_format_03d_nonneg i :
  0 ≤ i →
  py_format_03d i = zeros (3 - String.length (pretty i)) +:+ pretty i.
Proof.
  intros Hi. unfold py_format_03d.
  rewrite bool_decide_eq_false_2 by lia.
  rewrite Z.abs_eq by done. rewrite string_app_nil.
  change (String.length "") with 0%nat. by rewrite Nat.sub_0_r.
Qed.

Lemma py_format_03d_injective i j :
  0 ≤ i → 0 ≤ j → py_format_03d i = py_format_03d j → i = j.
Proof.
  intros Hi Hj. rewrite !py_format_03d_nonneg by done.
  assert (∀ k, k = 0 →
               zeros (3 - String.length (pretty k)) +:+ pretty k = zeros 3)
    as Hzero by (by intros k ->).
  destruct (decide (i = 0)) as [Hi0|Hi0], (decide (j = 0)) as [Hj0|Hj0].
  - congruence.
  - rewrite (Hzero i Hi0).
    destruct (pretty_Z_head j) as (d & r & -> & Hd); [lia|].
    intros Heq. by apply zeros_only in Heq.
  - rewrite (Hzero j Hj0).
    destruct (pretty_Z_head i) as (d & r & -> & Hd); [lia|].
    intros Heq. symmetry in Heq. by apply zeros_only in Heq.
  - destruct (pretty_Z_head i) as (d1 & r1 & Hpi & Hd1); [lia|].
    destruct (pretty_Z_head j) as (d2 & r2 & Hpj & Hd2); [lia|].
    rewrite Hpi, Hpj. intros Heq%zeros_then_digit; [|done..].
    rewrite <- Hpi, <- Hpj in Heq. by apply (inj pretty) in Heq.
Qed.

Lemma py_format_03d_no_dot i : 0 ≤ i → ¬ has_char "."%char (py_format_03d i).
Proof.
  intros Hi. rewrite py_format_03d_nonneg by done.
  rewrite has_char_app. intros [Hz|Hp].
  - by apply zeros_no_char in Hz.
  - by apply pretty_Z_no_char in Hp; [|apply dot_no_digit|].
Qed.

End text_injective.

(** X20.  The written text determines the formula: two texts built by
    the serialiser are equal only for the same header and the same
    clause list, literal by literal, given that a header holds no line
    feed (it is a stripped line). *)
Theorem cnf_string_injective
    (header1 header2 : string) (clauses1 clauses2 : list (list Z)) :
  ¬ has_char "010"%char header1 →
  ¬ has_char "010"%char header2 →
  cnf_string header1 clauses1 = cnf_string header2 clauses2 →
  header1 = header2 ∧ clauses1 = clauses2.
Proof.
  intros Hh1 Hh2. unfold cnf_string. rewrite !cnf_lines_fold.
  rewrite !string_app_assoc. unfold newline at 1 3. simpl.
  intros [-> Hrest]%cut_at_char; [|done..].
  split; [done|]. injection Hrest as Hlines.
  by apply cnf_lines_injective.
Qed.

Lemma cnf_string_injective_witness :
  ¬ has_char "010"%char "p cnf 3 2"
  ∧ [[1; 2]; [-1; -2; 3]] = [[1; 2]; [-1; -2; 3]].
Proof.
  assert (¬ has_char "010"%char "p cnf 3 2") as Hheader.
  { simpl. intros H. repeat (destruct H as [H|H]; [discriminate|]). done. }
  split; [exact Hheader|].
  destruct (cnf_string_injective
              "p cnf 3 2" "p cnf 3 2"
              [[1; 2]; [-1; -2; 3]] [[1; 2]; [-1; -2; 3]]
              Hheader Hheader eq_refl)
    as [_ Hclauses].
  exact Hclauses.
Defined.

(** X21.  No variant overwrites another: the file names of the indices
    of [range(count)] under one base name are pairwise distinct. *)
Theorem output_names_distinct (base_filename : string) (count : Z) :
  NoDup (output_name base_filename <$> py_range count).
Proof.
  apply NoDup_fmap_2_strong; [|apply NoDup_seqZ].
  intros i j Hi%elem_of_seqZ Hj%elem_of_seqZ. unfold output_name.
  intros Heq%(inj (String.app base_filename)). simpl in Heq.
  injection Heq as Heq.
  change ".cnf" with (String "."%char "cnf") in Heq.
  apply cut_at_char in Heq as [Heq _];
    [|apply py_format_03d_no_dot; lia..].
  apply py_format_03d_injective in Heq; [done|lia..].
Qed.
